(** * boxes.vectors: 2D vector helpers and the kerf offset

    A shallow embedding of [boxes/vectors.py].  Python floats are read as
    exact real numbers ([R]): the theorems below are statements about the
    arithmetic the code performs, not about IEEE-754 rounding.  What Python
    does on top of the arithmetic is kept: a float division by zero raises
    [ZeroDivisionError], [math.asin] outside [-1, 1] raises [ValueError],
    an index out of range raises [IndexError], a negative index counts from
    the end of the list. *)

From Stdlib Require Import Reals Lra Lia Psatz List ZArith Bool.
Import ListNotations.

Local Open Scope R_scope.

(** ** Python run-time behaviour used by the module *)

Module Py.

Inductive exn : Type :=
| ZeroDivisionError
| ValueError
| IndexError.

Inductive result (A : Type) : Type :=
| Ok (a : A)
| Raise (e : exn).

Arguments Ok {A} a.
Arguments Raise {A} e.

Definition bind {A B : Type} (c : result A) (f : A -> result B) : result B :=
  match c with
  | Ok a => f a
  | Raise e => Raise e
  end.

(** [a / b] on floats. *)
Definition truediv (a b : R) : result R :=
  if Req_dec_T b 0 then Raise ZeroDivisionError else Ok (a / b).

(** [a % b] on ints; Rocq's [Z.modulo] has the sign of the divisor, as
    Python's has. *)
Definition mod_ (a b : Z) : result Z :=
  if (b =? 0)%Z then Raise ZeroDivisionError else Ok (a mod b)%Z.

(** [l[i]]: a negative [i] counts from the end. *)
Definition getitem {A : Type} (l : list A) (i : Z) : result A :=
  let n := Z.of_nat (length l) in
  let j := if (i <? 0)%Z then (i + n)%Z else i in
  if ((j <? 0) || (n <=? j))%Z then Raise IndexError
  else match nth_error l (Z.to_nat j) with
       | Some a => Ok a
       | None => Raise IndexError
       end.

(** [l[i] = a], as a new list. *)
Fixpoint update {A : Type} (l : list A) (j : nat) (a : A) : list A :=
  match l, j with
  | [], _ => []
  | _ :: t, O => a :: t
  | h :: t, S j' => h :: update t j' a
  end.

Definition setitem {A : Type} (l : list A) (i : Z) (a : A) : result (list A) :=
  let n := Z.of_nat (length l) in
  let j := if (i <? 0)%Z then (i + n)%Z else i in
  if ((j <? 0) || (n <=? j))%Z then Raise IndexError
  else Ok (update l (Z.to_nat j) a).

(** [for i in range(n): s = body(i, s)], stopping at the first exception. *)
Fixpoint for_in {S : Type} (idx : list nat) (s : S)
         (body : nat -> S -> result S) : result S :=
  match idx with
  | [] => Ok s
  | i :: rest =>
      match body i s with
      | Ok s' => for_in rest s' body
      | Raise e => Raise e
      end
  end.

Definition for_range {S : Type} (n : nat) (s : S)
           (body : nat -> S -> result S) : result S :=
  for_in (seq 0 n) s body.

(** [[f(i) for i in range(n)]]. *)
Definition list_comp {A : Type} (n : nat) (f : nat -> result A) : result (list A) :=
  for_range n [] (fun i acc => bind (f i) (fun a => Ok (acc ++ [a]))).

(** [math.asin]: a domain error outside [-1, 1]. *)
Definition math_asin (x : R) : result R :=
  if Rlt_dec x (-1) then Raise ValueError
  else if Rlt_dec 1 x then Raise ValueError
  else Ok (asin x).

(** [math.atan2(y, x)]: the angle of the point [(x, y)], in (-pi, pi]. *)
Definition math_atan2 (y x : R) : R :=
  if Rlt_dec 0 x then atan (y / x)
  else if Rlt_dec x 0 then
    if Rle_dec 0 y then atan (y / x) + PI else atan (y / x) - PI
  else if Rlt_dec 0 y then PI / 2
  else if Rlt_dec y 0 then - (PI / 2)
  else 0.

End Py.

Import Py.

Notation "x <- c ;; k" := (bind c (fun x => k))
  (at level 61, c at next level, right associativity).

(** ** The module, function by function *)

Definition Vector : Type := (R * R)%type.
Definition Point : Type := (R * R)%type.
Definition Matrix : Type := list (list R).

(** [v ** 2] and [v ** 0.5]; the base of [** 0.5] is a sum of two squares
    wherever the module uses it. *)
Definition sq (x : R) : R := x * x.
Definition pow_half (x : R) : R := sqrt x.

Definition normalize (v : Vector) : result Vector :=
  let l := pow_half (sq (fst v) + sq (snd v)) in
  if Req_dec_T l 0 then Ok (0, 0)
  else
    a <- truediv (fst v) l ;;
    b <- truediv (snd v) l ;;
    Ok (a, b).

Definition vlength (v : Vector) : R :=
  pow_half (sq (fst v) + sq (snd v)).

Definition vscalmul (v : Vector) (a : R) : Vector :=
  (a * fst v, a * snd v).

Definition vclip (v : Vector) (length : R) : result Vector :=
  let l := vlength v in
  if Rlt_dec length l then
    q <- truediv length l ;;
    Ok (vscalmul v q)
  else Ok v.

Definition vdiff (p1 p2 : Point) : Vector :=
  (fst p2 - fst p1, snd p2 - snd p1).

Definition vadd (v1 v2 : Vector) : Vector :=
  (fst v1 + fst v2, snd v1 + snd v2).

Definition vorthogonal (v : Vector) : Vector :=
  (- snd v, fst v).

Definition dotproduct (v1 v2 : Vector) : R :=
  fst v1 * fst v2 + snd v1 * snd v2.

Definition circlepoint (r a : R) : Vector :=
  (r * cos a, r * sin a).

Definition tangent (x y r : R) : result Vector :=
  let l1 := vlength (x, y) in
  let a1 := math_atan2 y x in
  q <- truediv r l1 ;;
  a2 <- math_asin q ;;
  let l2 := cos a2 * l1 in
  Ok (a1 + a2, l2).

Definition rotm (angle : R) : Matrix :=
  [[cos angle; - sin angle; 0];
   [sin angle; cos angle; 0]].

Definition vtransl (v : list R) (m : Matrix) : result (list R) :=
  match m with
  | [m0; m1] =>
      a00 <- getitem m0 0 ;; v0 <- getitem v 0 ;;
      a01 <- getitem m0 1 ;; v1 <- getitem v 1 ;;
      a02 <- getitem m0 2 ;;
      a10 <- getitem m1 0 ;; v0' <- getitem v 0 ;;
      a11 <- getitem m1 1 ;; v1' <- getitem v 1 ;;
      a12 <- getitem m1 2 ;;
      Ok [a00 * v0 + a01 * v1 + a02; a10 * v0' + a11 * v1' + a12]
  | _ => Raise ValueError
  end.

Definition mmul (m0 m1 : Matrix) : result Matrix :=
  zeros <- list_comp (length m0)
             (fun _ => row <- getitem m0 0 ;; Ok (repeat 0 (length row))) ;;
  row0 <- getitem m0 0 ;;
  for_range (length row0) zeros (fun i result =>
    for_range (length m0) result (fun j result =>
      for_range (length m0) result (fun k result =>
        rj <- getitem result (Z.of_nat j) ;;
        old <- getitem rj (Z.of_nat i) ;;
        m0k <- getitem m0 (Z.of_nat k) ;;
        a <- getitem m0k (Z.of_nat i) ;;
        m1j <- getitem m1 (Z.of_nat j) ;;
        b <- getitem m1j (Z.of_nat k) ;;
        rj' <- setitem rj (Z.of_nat i) (old + a * b) ;;
        setitem result (Z.of_nat j) rj'))).

(** The body of the loop of [kerf] up to the override of the open case:
    the two orthogonals [(v1, v2)] at index [i]. *)
Definition kerf_normals (points : list Point) (lp : Z) (closed : bool) (i : Z)
  : result (Vector * Vector) :=
  p_prev <- getitem points (i - 1) ;;
  p_i <- getitem points i ;;
  n1 <- normalize (vdiff p_prev p_i) ;;
  let v1 := vorthogonal n1 in
  p_i' <- getitem points i ;;
  nxt <- mod_ (i + 1) lp ;;
  p_next <- getitem points nxt ;;
  n2 <- normalize (vdiff p_i' p_next) ;;
  let v2 := vorthogonal n2 in
  let v1 := if negb closed && (i =? 0)%Z then v2 else v1 in
  let v2 := if negb closed && (i =? lp - 1)%Z then v1 else v2 in
  Ok (v1, v2).

(** One iteration of the loop of [kerf]: the point appended for index [i]. *)
Definition kerf_step (points : list Point) (lp : Z) (k : R) (closed : bool) (i : Z)
  : result Point :=
  vs <- kerf_normals points lp closed i ;;
  let v1 := fst vs in
  let v2 := snd vs in
  d <- normalize (vadd v1 v2) ;;
  let cos_alpha := dotproduct v1 d in
  p <- getitem points i ;;
  q <- truediv (- k) cos_alpha ;;
  Ok (vadd p (vscalmul d q)).

Definition kerf (points : list Point) (k : R) (closed : bool) : result (list Point) :=
  let lp := Z.of_nat (length points) in
  for_range (length points) [] (fun i result =>
    p <- kerf_step points lp k closed (Z.of_nat i) ;;
    Ok (result ++ [p])).

(** ** Reference definitions

    The value [normalize] computes, as a total function, and the offset of
    one vertex the way the description of the algorithm words it: the
    neighbours of vertex [i] by index arithmetic modulo [n], the rule for
    the two ends of an open path, the bisector and the miter quotient. *)

Definition normalize_val (v : Vector) : Vector :=
  if Req_dec_T (vlength v) 0 then (0, 0)
  else (fst v / vlength v, snd v / vlength v).

Definition point_at (points : list Point) (i : nat) : Point :=
  nth i points (0, 0).

Definition prev_index (n i : nat) : nat := ((i + n - 1) mod n)%nat.
Definition next_index (n i : nat) : nat := ((i + 1) mod n)%nat.

(** Unit orthogonal of the edge from [p] to [q]. *)
Definition edge_normal (p q : Point) : Vector :=
  vorthogonal (normalize_val (vdiff p q)).

Definition incoming_normal (points : list Point) (i : nat) : Vector :=
  edge_normal (point_at points (prev_index (length points) i)) (point_at points i).

Definition outgoing_normal (points : list Point) (i : nat) : Vector :=
  edge_normal (point_at points i) (point_at points (next_index (length points) i)).

Definition spec_v1 (points : list Point) (closed : bool) (i : nat) : Vector :=
  if negb closed && (i =? 0)%nat then outgoing_normal points i
  else incoming_normal points i.

Definition spec_v2 (points : list Point) (closed : bool) (i : nat) : Vector :=
  if negb closed && (i =? length points - 1)%nat then spec_v1 points closed i
  else outgoing_normal points i.

Definition bisector (points : list Point) (closed : bool) (i : nat) : Vector :=
  normalize_val (vadd (spec_v1 points closed i) (spec_v2 points closed i)).

Definition cosHalfAngle (points : list Point) (closed : bool) (i : nat) : R :=
  dotproduct (spec_v1 points closed i) (bisector points closed i).

Definition kerf_spec_point (points : list Point) (k : R) (closed : bool) (i : nat) : Point :=
  vadd (point_at points i)
       (vscalmul (bisector points closed i) (- k / cosHalfAngle points closed i)).

Definition kerf_spec (points : list Point) (k : R) (closed : bool) : list Point :=
  map (kerf_spec_point points k closed) (seq 0 (length points)).

(** The edges of a path: every [i -> i+1], and [n-1 -> 0] too when the path
    is closed. *)
Definition edges_nondegenerate (points : list Point) (closed : bool) : Prop :=
  forall i : nat, (i < length points)%nat ->
    (closed = true \/ (i + 1 < length points)%nat) ->
    point_at points i <> point_at points (next_index (length points) i).

(** A 2x3 matrix with its translation column set to zero. *)
Definition linear_part (m : Matrix) : Matrix :=
  map (fun row => match row with
                  | [a; b; _] => [a; b; 0]
                  | _ => row
                  end) m.

(** A regular [n]-gon: centre [c], circumradius [rho], first vertex at angle
    [theta], vertices listed counter-clockwise for [sigma = 1] and clockwise
    for [sigma = -1]. *)
Definition regular_polygon (n : nat) (c : Point) (rho theta sigma : R) : list Point :=
  map (fun i => vadd c (circlepoint rho (theta + sigma * (2 * PI * INR i / INR n))))
      (seq 0 n).

Definition unit_square : list Point := [(0, 0); (1, 0); (1, 1); (0, 1)].

(** The orthogonal [(-y, x)] of the unit direction of the edge of the unit
    square leaving corner [i]. *)
Definition square_normal (i : nat) : Vector :=
  match i with
  | 0%nat => (0, 1)
  | 1%nat => (-1, 0)
  | 2%nat => (0, -1)
  | _ => (1, 0)
  end.

Definition segment : list Point := [(0, 0); (1, 0)].

(** A path that goes out and straight back. *)
Definition reversal : list Point := [(0, 0); (1, 0); (0, 0)].

(** An open path that lists its second vertex twice. *)
Definition doubled : list Point := [(0, 0); (1, 0); (1, 0); (0, 1)].

(** The opposite vector. *)
Definition neg (v : Vector) : Vector := vscalmul v (-1).

(** The path turns straight back at vertex [i]: the outgoing edge is a
    negative multiple of the incoming edge. *)
Definition turns_back (points : list Point) (i : nat) : Prop :=
  exists c : R, 0 < c /\
    vdiff (point_at points i) (point_at points (next_index (length points) i)) =
    vscalmul (vdiff (point_at points (prev_index (length points) i))
                    (point_at points i)) (- c).

(** A path with a corner at every vertex: at least two points when open,
    no zero-length edge, and no vertex between two edges at which the path
    turns straight back. *)
Definition offsettable (points : list Point) (closed : bool) : Prop :=
  (closed = true \/ (2 <= length points)%nat) /\
  edges_nondegenerate points closed /\
  forall i, (i < length points)%nat ->
    closed = true \/ ((1 <= i)%nat /\ (i + 1 < length points)%nat) ->
    ~ turns_back points i.

(** ** Vectors: length and normalisation *)

Section VectorFacts.

Implicit Types v : Vector.

Lemma vlength_nonneg v : 0 <= vlength v.
Proof. unfold vlength, pow_half. apply sqrt_pos. Qed.

Lemma sum_sq_nonneg (x y : R) : 0 <= sq x + sq y.
Proof. unfold sq. nra. Qed.

Lemma vlength_sqr v : vlength v * vlength v = sq (fst v) + sq (snd v).
Proof. unfold vlength, pow_half. apply sqrt_sqrt, sum_sq_nonneg. Qed.

Lemma vlength_zero_iff v : vlength v = 0 <-> v = (0, 0).
Proof.
  destruct v as [x y]. split.
  - intros H. pose proof (vlength_sqr (x, y)) as Hs.
    rewrite H in Hs. unfold sq in Hs. simpl in Hs.
    assert (x = 0) by nra. assert (y = 0) by nra. subst. reflexivity.
  - intros H. inversion H. subst. unfold vlength, pow_half, sq. simpl.
    replace (0 * 0 + 0 * 0) with 0 by ring. apply sqrt_0.
Qed.

(** A vector whose squared length is [l * l] for a positive [l] has
    length [l]. *)
Lemma vlength_of_sqr (x y l : R) :
  0 <= l -> sq x + sq y = l * l -> vlength (x, y) = l.
Proof.
  intros Hl H. unfold vlength, pow_half. simpl. rewrite H.
  apply sqrt_square, Hl.
Qed.

Lemma normalize_ok v : normalize v = Ok (normalize_val v).
Proof.
  unfold normalize, normalize_val. fold (vlength v).
  destruct (Req_dec_T (vlength v) 0) as [Hz | Hnz]; [reflexivity |].
  unfold truediv.
  destruct (Req_dec_T (vlength v) 0) as [Hz | _]; [contradiction |].
  reflexivity.
Qed.

Lemma normalize_val_zero : normalize_val (0, 0) = (0, 0).
Proof.
  unfold normalize_val.
  destruct (Req_dec_T (vlength (0, 0)) 0) as [_ | Hnz]; [reflexivity |].
  exfalso. apply Hnz. apply vlength_zero_iff. reflexivity.
Qed.

Lemma normalize_val_of_len (x y l : R) :
  0 < l -> sq x + sq y = l * l -> normalize_val (x, y) = (x / l, y / l).
Proof.
  intros Hl H. unfold normalize_val.
  rewrite (vlength_of_sqr x y l) by lra.
  destruct (Req_dec_T l 0); [lra | reflexivity].
Qed.

Lemma normalize_val_unit v : vlength v <> 0 -> vlength (normalize_val v) = 1.
Proof.
  intros Hnz. unfold normalize_val.
  destruct (Req_dec_T (vlength v) 0) as [Hz | _]; [contradiction |].
  apply vlength_of_sqr; [lra |]. simpl. unfold sq.
  pose proof (vlength_sqr v) as Hs. unfold sq in Hs.
  field_simplify_eq; [| exact Hnz]. lra.
Qed.

Lemma vorthogonal_length v : vlength (vorthogonal v) = vlength v.
Proof.
  unfold vlength, vorthogonal, sq. simpl. f_equal. ring.
Qed.

(** Scaling by a positive factor does not change the direction. *)
Lemma normalize_val_scale v (a : R) :
  0 < a -> normalize_val (vscalmul v a) = normalize_val v.
Proof.
  intros Ha. destruct v as [x y].
  destruct (Req_dec_T (vlength (x, y)) 0) as [Hz | Hnz].
  - apply vlength_zero_iff in Hz. inversion Hz. subst.
    unfold vscalmul. simpl. rewrite !Rmult_0_r. reflexivity.
  - pose proof (vlength_nonneg (x, y)) as Hp.
    pose proof (vlength_sqr (x, y)) as Hs. simpl in Hs.
    unfold vscalmul. simpl.
    rewrite (normalize_val_of_len (a * x) (a * y) (a * vlength (x, y))).
    + unfold normalize_val.
      destruct (Req_dec_T (vlength (x, y)) 0); [contradiction |].
      simpl. f_equal; field; split; lra.
    + nra.
    + unfold sq in *. nra.
Qed.

End VectorFacts.

(** ** [normalize] *)

(** C6.  [normalize] never raises; a vector of nonzero length is sent to a
    vector of length 1, and the zero vector to the zero vector. *)
Theorem normalize_unit_or_zero :
  (forall v : Vector, vlength v <> 0 ->
     exists u : Vector, normalize v = Ok u /\ vlength u = 1)
  /\ normalize (0, 0) = Ok (0, 0).
Proof.
  split.
  - intros v Hnz. exists (normalize_val v). split.
    + apply normalize_ok.
    + apply normalize_val_unit, Hnz.
  - rewrite normalize_ok, normalize_val_zero. reflexivity.
Qed.

Lemma normalize_unit_or_zero_witness :
  vlength (3, 4) <> 0 /\
  exists u : Vector, normalize (3, 4) = Ok u /\ vlength u = 1.
Proof.
  assert (H : vlength (3, 4) <> 0).
  { rewrite (vlength_of_sqr 3 4 5); [lra | lra | unfold sq; lra]. }
  split; [exact H |].
  exact (proj1 normalize_unit_or_zero (3, 4) H).
Defined.

(** ** [tangent] *)

(** C8.  A query point strictly inside the circle makes [tangent] raise:
    [ZeroDivisionError] at the centre itself, the [ValueError] of
    [math.asin] everywhere else.  No value is returned. *)
Theorem tangent_inside_raises (x y r : R) :
  vlength (x, y) < r ->
  ((x, y) = (0, 0) /\ tangent x y r = Raise ZeroDivisionError) \/
  ((x, y) <> (0, 0) /\ tangent x y r = Raise ValueError).
Proof.
  intros Hin. unfold tangent, truediv.
  destruct (Req_dec_T (vlength (x, y)) 0) as [Hz | Hnz].
  - left. split; [apply vlength_zero_iff, Hz | reflexivity].
  - right. split.
    + intros Heq. apply Hnz, vlength_zero_iff, Heq.
    + pose proof (vlength_nonneg (x, y)) as Hp.
      assert (Hgt : 1 < r / vlength (x, y)).
      { apply (Rmult_lt_reg_r (vlength (x, y))); [lra |].
        unfold Rdiv. rewrite Rmult_assoc, Rinv_l by exact Hnz. lra. }
      cbn [bind]. unfold math_asin.
      destruct (Rlt_dec (r / vlength (x, y)) (-1)); [reflexivity |].
      destruct (Rlt_dec 1 (r / vlength (x, y))); [reflexivity | lra].
Qed.

Lemma tangent_inside_raises_witness :
  vlength (1 / 2, 0) < 1 /\
  (((1 / 2, 0) = (0, 0) /\ tangent (1 / 2) 0 1 = Raise ZeroDivisionError) \/
   ((1 / 2, 0) <> (0, 0) /\ tangent (1 / 2) 0 1 = Raise ValueError)).
Proof.
  assert (H : vlength (1 / 2, 0) < 1).
  { rewrite (vlength_of_sqr (1 / 2) 0 (1 / 2)); [lra | lra | unfold sq; lra]. }
  split; [exact H |].
  exact (tangent_inside_raises (1 / 2) 0 1 H).
Defined.

(** C9.  A query point exactly on a circle of positive radius has tangent
    length 0: the quotient is 1, its arcsine is pi/2, and the cosine of
    that is 0. *)
Theorem tangent_on_circle (x y r : R) :
  0 < r -> vlength (x, y) = r ->
  tangent x y r = Ok (math_atan2 y x + PI / 2, 0).
Proof.
  intros Hr Hl. unfold tangent, truediv. rewrite Hl.
  destruct (Req_dec_T r 0) as [Hz | _]; [lra |].
  cbn [bind]. replace (r / r) with 1 by (field; lra).
  unfold math_asin.
  destruct (Rlt_dec 1 (-1)); [lra |].
  destruct (Rlt_dec 1 1); [lra |].
  cbn [bind]. rewrite asin_1, cos_PI2. f_equal. f_equal. ring.
Qed.

Lemma tangent_on_circle_witness :
  0 < 5 /\ vlength (3, 4) = 5 /\
  tangent 3 4 5 = Ok (math_atan2 4 3 + PI / 2, 0).
Proof.
  assert (H : vlength (3, 4) = 5).
  { apply vlength_of_sqr; [lra | unfold sq; lra]. }
  split; [lra |]. split; [exact H |].
  apply (tangent_on_circle 3 4 5); [lra | exact H].
Defined.

(** ** [mmul] and [vtransl] *)

Ltac py_eval :=
  cbv [mmul vtransl linear_part map list_comp for_range for_in seq length bind
       getitem setitem update repeat app nth_error
       Z.of_nat Z.to_nat Z.ltb Z.leb Z.compare Z.add Z.sub Z.opp Z.pos_sub
       orb Pos.of_succ_nat Pos.succ Pos.compare Pos.compare_cont
       Pos.to_nat Pos.iter_op Nat.add Pos.add Pos.pred_double].

(** The entries [mmul] computes on two 2x3 matrices:
    [result[j][i] = m0[0][i] * m1[j][0] + m0[1][i] * m1[j][1]]. *)
Lemma mmul_2x3 (a b c d e f a' b' c' d' e' f' : R) :
  mmul [[a; b; c]; [d; e; f]] [[a'; b'; c']; [d'; e'; f']] =
  Ok [[a * a' + d * b'; b * a' + e * b'; c * a' + f * b'];
      [a * d' + d * e'; b * d' + e * e'; c * d' + f * e']].
Proof.
  py_eval. do 2 f_equal; [| f_equal]; repeat (f_equal; try ring).
Qed.

(** C7, as the code has it.  On two 2x3 matrices [mmul m0 m1] has the
    entries [m0[0][i] * m1[j][0] + m0[1][i] * m1[j][1]]: applying it to a
    point is applying [m0] (translation column included) and then the first
    two columns of [m1]; the translation column of [m1] does not enter the
    product. *)
Theorem mmul_is_m0_then_linear_m1 (a b c d e f a' b' c' d' e' f' x y : R) :
  let m0 := [[a; b; c]; [d; e; f]] in
  let m1 := [[a'; b'; c']; [d'; e'; f']] in
  mmul m0 m1 =
    Ok [[a * a' + d * b'; b * a' + e * b'; c * a' + f * b'];
        [a * d' + d * e'; b * d' + e * e'; c * d' + f * e']] /\
  (m <- mmul m0 m1 ;; vtransl [x; y] m) =
  (q <- vtransl [x; y] m0 ;; vtransl q (linear_part m1)).
Proof.
  intros m0 m1. unfold m0, m1. split; [apply mmul_2x3 |].
  rewrite mmul_2x3. py_eval. do 2 f_equal; [| f_equal]; ring.
Qed.

(** C7, as stated, fails: with [m0] a translation by (1,0) and [m1] a
    scaling by 2 followed by a translation by (0,3), the product sends the
    origin to (2,0), while [m1] followed by [m0] sends it to (1,3). *)
Lemma mmul_compose_counterexample :
  let m0 := [[1; 0; 1]; [0; 1; 0]] in
  let m1 := [[2; 0; 0]; [0; 2; 3]] in
  (m <- mmul m0 m1 ;; vtransl [0; 0] m) = Ok [2; 0] /\
  (q <- vtransl [0; 0] m1 ;; vtransl q m0) = Ok [1; 3] /\
  (m <- mmul m0 m1 ;; vtransl [0; 0] m) <> (q <- vtransl [0; 0] m1 ;; vtransl q m0).
Proof.
  intros m0 m1.
  assert (H1 : (m <- mmul m0 m1 ;; vtransl [0; 0] m) = Ok [2; 0]).
  { unfold m0, m1. rewrite mmul_2x3. py_eval. do 2 f_equal; [| f_equal]; ring. }
  assert (H2 : (q <- vtransl [0; 0] m1 ;; vtransl q m0) = Ok [1; 3]).
  { unfold m0, m1. py_eval. do 2 f_equal; [| f_equal]; ring. }
  split; [exact H1 |]. split; [exact H2 |].
  rewrite H1, H2. intros Heq. inversion Heq. lra.
Qed.

(** ** Indexing and loops *)

Section Indexing.

Context {A : Type}.
Implicit Types (l : list A) (d : A).

Lemma getitem_nat l d (i : nat) :
  (i < length l)%nat -> getitem l (Z.of_nat i) = Ok (nth i l d).
Proof.
  intros Hi. unfold getitem.
  destruct (Z.ltb_spec (Z.of_nat i) 0) as [Hneg | _]; [lia |].
  destruct (Z.ltb_spec (Z.of_nat i) 0) as [Hneg | _]; [lia |].
  destruct (Z.leb_spec (Z.of_nat (length l)) (Z.of_nat i)) as [Hge | _]; [lia |].
  cbn [orb]. rewrite Nat2Z.id.
  rewrite (nth_error_nth' l d Hi). reflexivity.
Qed.

(** [l[i - 1]]: the last element for [i = 0]. *)
Lemma getitem_prev l d (i : nat) :
  (i < length l)%nat ->
  getitem l (Z.of_nat i - 1) = Ok (nth (prev_index (length l) i) l d).
Proof.
  intros Hi. unfold prev_index. destruct i as [| i].
  - replace (Z.of_nat 0 - 1)%Z with (-1)%Z by lia.
    unfold getitem.
    destruct (Z.ltb_spec (-1) 0) as [_ | Hge]; [| lia].
    destruct (Z.ltb_spec (-1 + Z.of_nat (length l)) 0) as [Hneg | _]; [lia |].
    destruct (Z.leb_spec (Z.of_nat (length l)) (-1 + Z.of_nat (length l)))
      as [Hge | _]; [lia |].
    cbn [orb].
    replace (Z.to_nat (-1 + Z.of_nat (length l))) with (length l - 1)%nat by lia.
    replace ((0 + length l - 1) mod length l)%nat with (length l - 1)%nat
      by (rewrite Nat.mod_small; lia).
    rewrite (nth_error_nth' l d) by lia. reflexivity.
  - replace (Z.of_nat (S i) - 1)%Z with (Z.of_nat i) by lia.
    replace ((S i + length l - 1) mod length l)%nat with i.
    + apply getitem_nat. lia.
    + replace (S i + length l - 1)%nat with (i + 1 * length l)%nat by lia.
      rewrite Nat.Div0.mod_add. rewrite Nat.mod_small; lia.
Qed.

End Indexing.

Lemma mod_next (n i : nat) :
  (0 < n)%nat ->
  mod_ (Z.of_nat i + 1) (Z.of_nat n) = Ok (Z.of_nat (next_index n i)).
Proof.
  intros Hn. unfold mod_, next_index.
  destruct (Z.eqb_spec (Z.of_nat n) 0) as [Hz | _]; [lia |].
  f_equal. rewrite Nat2Z.inj_mod. f_equal. lia.
Qed.

Lemma next_index_lt (n i : nat) : (0 < n)%nat -> (next_index n i < n)%nat.
Proof. intros Hn. unfold next_index. apply Nat.mod_upper_bound. lia. Qed.

Lemma prev_index_lt (n i : nat) : (0 < n)%nat -> (prev_index n i < n)%nat.
Proof. intros Hn. unfold prev_index. apply Nat.mod_upper_bound. lia. Qed.

Section Loops.

Context {A : Type}.
Implicit Types (f : nat -> result A) (g : nat -> A) (acc : list A).

(** A loop whose body appends [f i] returns the list of all [f i] when none
    of them raises. *)
Lemma for_in_append_ok f g (idx : list nat) acc :
  (forall i, In i idx -> f i = Ok (g i)) ->
  for_in idx acc (fun i r => p <- f i ;; Ok (r ++ [p])) = Ok (acc ++ map g idx).
Proof.
  revert acc. induction idx as [| i idx IH]; intros acc Hok.
  - cbn. rewrite app_nil_r. reflexivity.
  - cbn [for_in map]. rewrite (Hok i) by (left; reflexivity). cbn [bind].
    rewrite IH by (intros j Hj; apply Hok; right; exact Hj).
    rewrite <- app_assoc. reflexivity.
Qed.

(** When [e] is the only exception the body can raise and it does raise it
    at some index, the loop raises [e]. *)
Lemma for_in_append_raise f (e : exn) (idx : list nat) acc :
  (forall i, In i idx -> (exists a, f i = Ok a) \/ f i = Raise e) ->
  (exists j, In j idx /\ f j = Raise e) ->
  for_in idx acc (fun i r => p <- f i ;; Ok (r ++ [p])) = Raise e.
Proof.
  revert acc. induction idx as [| i idx IH]; intros acc Hall [j [Hj Hraise]].
  - destruct Hj.
  - cbn [for_in].
    destruct (Hall i (or_introl eq_refl)) as [[a Ha] | Hr].
    + rewrite Ha. cbn [bind]. apply IH.
      * intros i' Hi'. apply Hall. right. exact Hi'.
      * destruct Hj as [Heq | Hin].
        -- subst j. rewrite Ha in Hraise. discriminate.
        -- exists j. split; assumption.
    + rewrite Hr. reflexivity.
Qed.

End Loops.

(** ** [kerf]: the loop body *)

Section KerfStep.

Variable points : list Point.
Variable k : R.
Variable closed : bool.

Let n := length points.

Lemma kerf_normals_eq (i : nat) :
  (i < n)%nat ->
  kerf_normals points (Z.of_nat n) closed (Z.of_nat i) =
  Ok (spec_v1 points closed i, spec_v2 points closed i).
Proof.
  intros Hi. unfold kerf_normals.
  rewrite (getitem_prev points (0, 0) i Hi). cbn [bind].
  rewrite (getitem_nat points (0, 0) i Hi). cbn [bind].
  rewrite normalize_ok. cbn [bind].
  rewrite mod_next by (unfold n in *; lia). cbn [bind].
  rewrite (getitem_nat points (0, 0) (next_index n i))
    by (apply next_index_lt; unfold n in *; lia).
  cbn [bind]. rewrite normalize_ok. cbn [bind].
  unfold spec_v2, spec_v1, incoming_normal, outgoing_normal, edge_normal, point_at.
  fold n.
  replace (Z.of_nat i =? 0)%Z with (i =? 0)%nat
    by (destruct (Nat.eqb_spec i 0), (Z.eqb_spec (Z.of_nat i) 0); lia || reflexivity).
  replace (Z.of_nat i =? Z.of_nat n - 1)%Z with (i =? n - 1)%nat
    by (destruct (Nat.eqb_spec i (n - 1)),
                 (Z.eqb_spec (Z.of_nat i) (Z.of_nat n - 1)); lia || reflexivity).
  reflexivity.
Qed.

Lemma kerf_step_eq (i : nat) :
  (i < n)%nat ->
  kerf_step points (Z.of_nat n) k closed (Z.of_nat i) =
  (q <- truediv (- k) (cosHalfAngle points closed i) ;;
   Ok (vadd (point_at points i) (vscalmul (bisector points closed i) q))).
Proof.
  intros Hi. unfold kerf_step.
  rewrite (kerf_normals_eq i Hi). cbn [bind fst snd].
  rewrite normalize_ok. cbn [bind].
  rewrite (getitem_nat points (0, 0) i Hi). cbn [bind].
  reflexivity.
Qed.

Lemma kerf_step_ok (i : nat) :
  (i < n)%nat -> cosHalfAngle points closed i <> 0 ->
  kerf_step points (Z.of_nat n) k closed (Z.of_nat i) =
  Ok (kerf_spec_point points k closed i).
Proof.
  intros Hi Hc. rewrite (kerf_step_eq i Hi). unfold truediv.
  destruct (Req_dec_T (cosHalfAngle points closed i) 0); [contradiction |].
  reflexivity.
Qed.

Lemma kerf_step_raise (i : nat) :
  (i < n)%nat -> cosHalfAngle points closed i = 0 ->
  kerf_step points (Z.of_nat n) k closed (Z.of_nat i) = Raise ZeroDivisionError.
Proof.
  intros Hi Hc. rewrite (kerf_step_eq i Hi). unfold truediv.
  destruct (Req_dec_T (cosHalfAngle points closed i) 0); [| contradiction].
  reflexivity.
Qed.

(** [kerf] returns the offset path when no vertex has a zero cosine ... *)
Lemma kerf_ok :
  (forall i, (i < n)%nat -> cosHalfAngle points closed i <> 0) ->
  kerf points k closed = Ok (kerf_spec points k closed).
Proof.
  intros Hc. unfold kerf, for_range, kerf_spec. fold n.
  rewrite (for_in_append_ok
             (fun i => kerf_step points (Z.of_nat n) k closed (Z.of_nat i))
             (kerf_spec_point points k closed)).
  - reflexivity.
  - intros i Hi. apply in_seq in Hi. apply kerf_step_ok; [lia |].
    apply Hc. lia.
Qed.

(** ... and raises [ZeroDivisionError] as soon as one has. *)
Lemma kerf_raise (j : nat) :
  (j < n)%nat -> cosHalfAngle points closed j = 0 ->
  kerf points k closed = Raise ZeroDivisionError.
Proof.
  intros Hj Hc. unfold kerf, for_range. fold n.
  apply (for_in_append_raise
           (fun i => kerf_step points (Z.of_nat n) k closed (Z.of_nat i))).
  - intros i Hi. apply in_seq in Hi.
    destruct (Req_dec_T (cosHalfAngle points closed i) 0) as [Hz | Hnz].
    + right. apply kerf_step_raise; [lia | exact Hz].
    + left. eexists. apply kerf_step_ok; [lia | exact Hnz].
  - exists j. split; [apply in_seq; lia |].
    apply kerf_step_raise; assumption.
Qed.

End KerfStep.

(** ** Edge normals *)

Lemma vdiff_zero_iff (p q : Point) : vdiff p q = (0, 0) <-> p = q.
Proof.
  destruct p as [px py], q as [qx qy]. unfold vdiff. simpl. split.
  - intros H. inversion H. f_equal; lra.
  - intros H. inversion H. subst. f_equal; ring.
Qed.

Lemma edge_normal_unit (p q : Point) : p <> q -> vlength (edge_normal p q) = 1.
Proof.
  intros Hne. unfold edge_normal. rewrite vorthogonal_length.
  apply normalize_val_unit. intros Hz. apply Hne.
  apply vdiff_zero_iff, vlength_zero_iff, Hz.
Qed.

Lemma edge_normal_degenerate (p : Point) : edge_normal p p = (-0, 0).
Proof.
  unfold edge_normal.
  replace (vdiff p p) with ((0, 0) : Vector) by (symmetry; apply vdiff_zero_iff; reflexivity).
  rewrite normalize_val_zero. reflexivity.
Qed.

Lemma next_prev_index (n i : nat) :
  (i < n)%nat -> next_index n (prev_index n i) = i.
Proof.
  intros Hi. unfold next_index, prev_index.
  rewrite Nat.Div0.add_mod_idemp_l.
  replace (i + n - 1 + 1)%nat with (i + 1 * n)%nat by lia.
  rewrite Nat.Div0.mod_add. apply Nat.mod_small, Hi.
Qed.

Lemma prev_index_succ (n i : nat) :
  (S i < n)%nat -> prev_index n (S i) = i.
Proof.
  intros Hi. unfold prev_index.
  replace (S i + n - 1)%nat with (i + 1 * n)%nat by lia.
  rewrite Nat.Div0.mod_add. apply Nat.mod_small. lia.
Qed.

(** ** [kerf]: the offset path *)

(** C1.  On a path of at least one point whose edges are non-degenerate and
    whose bisector cosine vanishes at no vertex, [kerf] returns a list of
    the same length whose [i]-th point is
    [points[i] + d * (-k / cosHalfAngle)], with [v1] and [v2] unit vectors:
    the orthogonals of the incoming and of the outgoing edge (indices modulo
    the length; at the two ends of an open path the one edge there is gives
    both), [d = normalize (v1 + v2)] and [cosHalfAngle = dot v1 d]. *)
Theorem kerf_offsets_every_vertex (points : list Point) (k : R) (closed : bool) :
  (1 <= length points)%nat ->
  edges_nondegenerate points closed ->
  (forall i, (i < length points)%nat -> cosHalfAngle points closed i <> 0) ->
  exists out : list Point,
    kerf points k closed = Ok out /\
    length out = length points /\
    forall i, (i < length points)%nat ->
      let v1 := spec_v1 points closed i in
      let v2 := spec_v2 points closed i in
      let d := normalize_val (vadd v1 v2) in
      let cos_alpha := dotproduct v1 d in
      nth i out (0, 0) = vadd (point_at points i) (vscalmul d (- k / cos_alpha)) /\
      vlength v1 = 1 /\ vlength v2 = 1.
Proof.
  intros Hlen Hedges Hcos.
  exists (kerf_spec points k closed). split; [apply kerf_ok, Hcos |].
  split; [unfold kerf_spec; rewrite length_map, length_seq; reflexivity |].
  intros i Hi. cbn zeta. split; [| split].
  - unfold kerf_spec.
    rewrite (nth_indep _ (0, 0) (kerf_spec_point points k closed 0))
      by (rewrite length_map, length_seq; exact Hi).
    rewrite (map_nth (kerf_spec_point points k closed)), seq_nth by exact Hi.
    reflexivity.
  - (* v1 *)
    unfold spec_v1. destruct closed; cbn [negb andb].
    + unfold incoming_normal. apply edge_normal_unit.
      pose proof (Hedges (prev_index (length points) i)
                    (prev_index_lt (length points) i ltac:(lia)) (or_introl eq_refl)) as He.
      rewrite next_prev_index in He by exact Hi. exact He.
    + destruct (Nat.eqb_spec i 0) as [Hz | Hnz].
      * subst i. unfold outgoing_normal. apply edge_normal_unit.
        destruct (Nat.eq_dec (length points) 1) as [H1 | Hn1].
        -- exfalso. apply (Hcos 0%nat Hi).
           unfold cosHalfAngle, bisector, spec_v2, spec_v1, outgoing_normal.
           rewrite H1. cbn [negb andb Nat.eqb Nat.sub].
           change (next_index 1 0) with 0%nat. rewrite edge_normal_degenerate.
           unfold dotproduct. simpl. ring.
        -- apply Hedges; [exact Hi | right; lia].
      * unfold incoming_normal. apply edge_normal_unit.
        destruct i as [| i']; [contradiction |].
        rewrite prev_index_succ by exact Hi.
        assert (He : point_at points i' <>
                        point_at points (next_index (length points) i'))
          by (apply Hedges; [lia | right; lia]).
        unfold next_index in He. rewrite Nat.mod_small in He by lia.
        replace (i' + 1)%nat with (S i') in He by lia. exact He.
  - (* v2 *)
    unfold spec_v2, spec_v1. destruct closed; cbn [negb andb].
    + unfold outgoing_normal. apply edge_normal_unit.
      apply Hedges; [exact Hi | left; reflexivity].
    + destruct (Nat.eqb_spec i (length points - 1)) as [Hlast | Hnl].
      * destruct (Nat.eqb_spec i 0) as [Hz | Hnz].
        -- exfalso. assert (H1 : length points = 1%nat) by lia.
           apply (Hcos 0%nat ltac:(lia)).
           unfold cosHalfAngle, bisector, spec_v2, spec_v1, outgoing_normal.
           rewrite H1. cbn [negb andb Nat.eqb Nat.sub].
           change (next_index 1 0) with 0%nat. rewrite edge_normal_degenerate.
           unfold dotproduct. simpl. ring.
        -- unfold incoming_normal. apply edge_normal_unit.
           destruct i as [| i']; [contradiction |].
           rewrite prev_index_succ by exact Hi.
           assert (He : point_at points i' <>
                        point_at points (next_index (length points) i'))
          by (apply Hedges; [lia | right; lia]).
           unfold next_index in He. rewrite Nat.mod_small in He by lia.
           replace (i' + 1)%nat with (S i') in He by lia. exact He.
      * unfold outgoing_normal. apply edge_normal_unit.
        apply Hedges; [exact Hi | right; lia].
Qed.

(** ** Evaluating one vertex *)

Lemma normalize_val_eq (v u : Vector) (l : R) :
  0 < l -> sq (fst v) + sq (snd v) = l * l ->
  fst u * l = fst v -> snd u * l = snd v ->
  normalize_val v = u.
Proof.
  intros Hl Hs Hx Hy. destruct v as [x y], u as [ux uy]. simpl in *.
  rewrite (normalize_val_of_len x y l Hl Hs).
  f_equal; [rewrite <- Hx | rewrite <- Hy]; field; lra.
Qed.

Lemma edge_normal_eq (p q : Point) (u : Vector) (l : R) :
  0 < l -> sq (fst q - fst p) + sq (snd q - snd p) = l * l ->
  fst u * l = - (snd q - snd p) -> snd u * l = fst q - fst p ->
  edge_normal p q = u.
Proof.
  intros Hl Hs Hx Hy. unfold edge_normal.
  rewrite (normalize_val_eq (vdiff p q) (snd u, - fst u) l Hl Hs)
    by (unfold vdiff; simpl; lra).
  destruct u as [ux uy]. unfold vorthogonal. simpl. f_equal. ring.
Qed.

(** From the two orthogonals at a vertex and the length [l] of their sum to
    the bisector, the cosine and the offset point. *)
Lemma vertex_eval (points : list Point) (k : R) (closed : bool) (i : nat)
      (a b d : Vector) (l c : R) :
  spec_v1 points closed i = a -> spec_v2 points closed i = b ->
  0 < l -> sq (fst a + fst b) + sq (snd a + snd b) = l * l ->
  fst d * l = fst a + fst b -> snd d * l = snd a + snd b ->
  dotproduct a d = c ->
  bisector points closed i = d /\
  cosHalfAngle points closed i = c /\
  kerf_spec_point points k closed i =
    vadd (point_at points i) (vscalmul d (- k / c)).
Proof.
  intros Ha Hb Hl Hs Hx Hy Hc.
  assert (Hd : bisector points closed i = d).
  { unfold bisector. rewrite Ha, Hb.
    apply (normalize_val_eq _ d l Hl); assumption. }
  assert (Hcos : cosHalfAngle points closed i = c).
  { unfold cosHalfAngle. rewrite Hd, Ha. exact Hc. }
  split; [exact Hd |]. split; [exact Hcos |].
  unfold kerf_spec_point. rewrite Hd, Hcos. reflexivity.
Qed.

(** ** The open two-point path *)

Lemma segment_normals (i : nat) :
  (i < 2)%nat ->
  spec_v1 segment false i = (0, 1) /\ spec_v2 segment false i = (0, 1).
Proof.
  intros Hi.
  assert (He : edge_normal (0, 0) (1, 0) = (0, 1)).
  { apply (edge_normal_eq _ _ _ 1); unfold sq; simpl; lra. }
  destruct i as [| [| i]]; [| | lia].
  - unfold spec_v2, spec_v1, outgoing_normal. cbn. split; exact He.
  - unfold spec_v2, spec_v1, incoming_normal. cbn. split; exact He.
Qed.

Lemma segment_vertex (k : R) (i : nat) :
  (i < 2)%nat ->
  bisector segment false i = (0, 1) /\
  cosHalfAngle segment false i = 1 /\
  kerf_spec_point segment k false i = (INR i, - k).
Proof.
  intros Hi. destruct (segment_normals i Hi) as [H1 H2].
  destruct (vertex_eval segment k false i (0, 1) (0, 1) (0, 1) 2 1 H1 H2)
    as [Hd [Hc Hp]]; try (unfold sq, dotproduct; simpl; lra).
  split; [exact Hd |]. split; [exact Hc |]. rewrite Hp.
  destruct i as [| [| i]]; [| | lia];
    unfold vadd, vscalmul; cbn; f_equal; field.
Qed.

(** C4.  On the open path [(0,0), (1,0)] both ends take the orthogonal
    [(0, 1)] of the one edge for [v1] and for [v2], the cosine is 1, and
    the result is [(0,-k), (1,-k)]. *)
Theorem kerf_open_segment (k : R) :
  kerf segment k false = Ok [(0, - k); (1, - k)] /\
  (forall i, (i < 2)%nat ->
     spec_v1 segment false i = outgoing_normal segment 0 /\
     spec_v2 segment false i = outgoing_normal segment 0 /\
     cosHalfAngle segment false i = 1).
Proof.
  split.
  - rewrite kerf_ok.
    + unfold kerf_spec. cbn [segment length seq map].
      destruct (segment_vertex k 0 ltac:(lia)) as [_ [_ H0]].
      destruct (segment_vertex k 1 ltac:(lia)) as [_ [_ H1]].
      rewrite H0, H1. cbn [INR]. reflexivity.
    + intros i Hi. destruct (segment_vertex k i Hi) as [_ [Hc _]].
      rewrite Hc. lra.
  - intros i Hi. destruct (segment_normals i Hi) as [H1 H2].
    destruct (segment_normals 0 ltac:(lia)) as [H0 _].
    destruct (segment_vertex k i Hi) as [_ [Hc _]].
    rewrite H1, H2, Hc. unfold spec_v1 in H0. cbn in H0. rewrite H0.
    repeat split.
Qed.

(** ** The unit square *)

Lemma sqrt2_sqr : sqrt 2 * sqrt 2 = 2.
Proof. apply sqrt_sqrt. lra. Qed.

Lemma sqrt2_pos : 0 < sqrt 2.
Proof. apply sqrt_lt_R0. lra. Qed.

Lemma unit_square_normals (i : nat) :
  (i < 4)%nat ->
  spec_v1 unit_square true i = square_normal (prev_index 4 i) /\
  spec_v2 unit_square true i = square_normal i.
Proof.
  intros Hi. unfold spec_v2, spec_v1, incoming_normal, outgoing_normal.
  cbn [negb andb].
  destruct i as [| [| [| [| i]]]]; [| | | | lia]; cbn;
    (split; apply (edge_normal_eq _ _ _ 1); unfold sq; simpl; lra).
Qed.

Lemma unit_square_vertex (k : R) (i : nat) :
  (i < 4)%nat ->
  cosHalfAngle unit_square true i = / sqrt 2 /\
  kerf_spec_point unit_square k true i =
    vadd (point_at unit_square i)
         (vscalmul (vadd (square_normal (prev_index 4 i)) (square_normal i)) (- k)).
Proof.
  intros Hi. destruct (unit_square_normals i Hi) as [H1 H2].
  pose proof sqrt2_sqr as Hs. pose proof sqrt2_pos as Hp.
  set (a := square_normal (prev_index 4 i)) in *.
  set (b := square_normal i) in *.
  destruct (vertex_eval unit_square k true i a b
              (vscalmul (vadd a b) (/ sqrt 2)) (sqrt 2) (/ sqrt 2) H1 H2)
    as [_ [Hc Hq]]; try exact Hp;
    try (subst a b; destruct i as [| [| [| [| i]]]]; [| | | | lia];
         unfold sq, dotproduct, vscalmul, vadd; cbn; field_simplify; nra).
  split; [exact Hc |]. rewrite Hq.
  unfold vadd, vscalmul. cbn [fst snd]. f_equal; f_equal; field; lra.
Qed.

Lemma unit_square_offset_any (k : R) :
  kerf unit_square k true =
  Ok [(- k, - k); (1 + k, - k); (1 + k, 1 + k); (- k, 1 + k)].
Proof.
  rewrite kerf_ok.
  - unfold kerf_spec. cbn [unit_square length seq map]. fold unit_square.
    destruct (unit_square_vertex k 0 ltac:(lia)) as [_ H0].
    destruct (unit_square_vertex k 1 ltac:(lia)) as [_ H1].
    destruct (unit_square_vertex k 2 ltac:(lia)) as [_ H2].
    destruct (unit_square_vertex k 3 ltac:(lia)) as [_ H3].
    rewrite H0, H1, H2, H3. unfold vadd, vscalmul. cbn.
    repeat (f_equal; try lra).
  - intros i Hi. destruct (unit_square_vertex k i Hi) as [Hc _].
    rewrite Hc. apply Rinv_neq_0_compat. pose proof sqrt2_pos. lra.
Qed.

(** C3.  The closed unit square offset by 0.1 becomes the square with
    corners (-0.1,-0.1), (1.1,-0.1), (1.1,1.1), (-0.1,1.1): at every corner
    the cosine is cos(pi/4), and the displacement points from the centre
    of the square through the corner and has length
    0.1 / cos(pi/4) = 0.1 * sqrt 2. *)
Theorem kerf_unit_square :
  exists out : list Point,
    kerf unit_square (1 / 10) true = Ok out /\
    out = [(- (1 / 10), - (1 / 10)); (11 / 10, - (1 / 10));
           (11 / 10, 11 / 10); (- (1 / 10), 11 / 10)] /\
    forall i, (i < 4)%nat ->
      let disp := vdiff (point_at unit_square i) (nth i out (0, 0)) in
      cosHalfAngle unit_square true i = cos (PI / 4) /\
      vlength disp = 1 / 10 / cos (PI / 4) /\
      vlength disp = 1 / 10 * sqrt 2 /\
      disp = vscalmul (vdiff (1 / 2, 1 / 2) (point_at unit_square i)) (2 * (1 / 10)).
Proof.
  pose proof sqrt2_sqr as Hs. pose proof sqrt2_pos as Hp.
  eexists. split; [| split; [reflexivity |]].
  - rewrite unit_square_offset_any.
    replace (11 / 10) with (1 + 1 / 10) by lra. reflexivity.
  - intros i Hi. cbn zeta.
    destruct (unit_square_vertex (1 / 10) i Hi) as [Hc _].
    assert (Hcos : cos (PI / 4) = / sqrt 2).
    { rewrite cos_PI4. unfold Rdiv. ring. }
    assert (Hlen : vlength (vdiff (point_at unit_square i)
                     (nth i [(- (1 / 10), - (1 / 10)); (11 / 10, - (1 / 10));
                             (11 / 10, 11 / 10); (- (1 / 10), 11 / 10)] (0, 0)))
                   = 1 / 10 * sqrt 2).
    { destruct i as [| [| [| [| i]]]]; [| | | | lia]; cbn;
        (apply vlength_of_sqr; unfold sq; simpl; nra). }
    split; [rewrite Hc, Hcos; reflexivity |].
    split; [transitivity (1 / 10 * sqrt 2);
            [exact Hlen | rewrite Hcos; field; lra] |].
    split; [exact Hlen |].
    destruct i as [| [| [| [| i]]]]; [| | | | lia];
      unfold vdiff, vscalmul; cbn; f_equal; lra.
Qed.

Lemma unit_square_edges : edges_nondegenerate unit_square true.
Proof.
  intros i Hi _. cbn in Hi.
  destruct i as [| [| [| [| i]]]]; [| | | | lia]; cbn;
    intros H; inversion H; lra.
Qed.

Lemma unit_square_cosines (i : nat) :
  (i < length unit_square)%nat -> cosHalfAngle unit_square true i <> 0.
Proof.
  intros Hi. destruct (unit_square_vertex 0 i Hi) as [Hc _].
  rewrite Hc. apply Rinv_neq_0_compat. pose proof sqrt2_pos. lra.
Qed.

Lemma kerf_offsets_every_vertex_witness :
  (1 <= length unit_square)%nat /\
  edges_nondegenerate unit_square true /\
  (forall i, (i < length unit_square)%nat -> cosHalfAngle unit_square true i <> 0) /\
  exists out : list Point,
    kerf unit_square (1 / 10) true = Ok out /\
    length out = length unit_square /\
    forall i, (i < length unit_square)%nat ->
      let v1 := spec_v1 unit_square true i in
      let v2 := spec_v2 unit_square true i in
      let d := normalize_val (vadd v1 v2) in
      let cos_alpha := dotproduct v1 d in
      nth i out (0, 0) =
        vadd (point_at unit_square i) (vscalmul d (- (1 / 10) / cos_alpha)) /\
      vlength v1 = 1 /\ vlength v2 = 1.
Proof.
  split; [cbn; lia |]. split; [exact unit_square_edges |].
  split; [exact unit_square_cosines |].
  apply (kerf_offsets_every_vertex unit_square (1 / 10) true);
    [cbn; lia | exact unit_square_edges | exact unit_square_cosines].
Defined.

(** ** Vertices where the cosine is zero *)

Lemma normalize_val_null (x y : R) : x = 0 -> y = 0 -> normalize_val (x, y) = (0, 0).
Proof. intros -> ->. apply normalize_val_zero. Qed.

(** Scaling by a negative factor turns the unit direction around. *)
Lemma normalize_val_scale_neg (v : Vector) (c : R) :
  0 < c -> normalize_val (vscalmul v (- c)) = vscalmul (normalize_val v) (-1).
Proof.
  intros Hc.
  replace (vscalmul v (- c)) with (vscalmul (vscalmul v (-1)) c)
    by (unfold vscalmul; simpl; f_equal; ring).
  rewrite normalize_val_scale by exact Hc.
  unfold normalize_val.
  replace (vlength (vscalmul v (-1))) with (vlength v)
    by (unfold vlength, vscalmul, sq; simpl; f_equal; ring).
  destruct (Req_dec_T (vlength v) 0) as [Hz | Hnz].
  - unfold vscalmul. simpl. f_equal; ring.
  - unfold vscalmul. simpl. f_equal; field; exact Hnz.
Qed.

(** A vertex that repeats its predecessor has a zero incoming orthogonal,
    hence a zero cosine, unless it is the first vertex of an open path. *)
Lemma duplicate_vertex_cos (points : list Point) (closed : bool) (j : nat) :
  closed = true \/ (1 <= j)%nat ->
  point_at points (prev_index (length points) j) = point_at points j ->
  cosHalfAngle points closed j = 0.
Proof.
  intros Hside Hdup.
  assert (Hv1 : spec_v1 points closed j = (-0, 0)).
  { unfold spec_v1.
    replace (negb closed && (j =? 0)%nat) with false.
    - unfold incoming_normal. rewrite Hdup. apply edge_normal_degenerate.
    - destruct Hside as [-> | Hj]; [reflexivity |].
      destruct (Nat.eqb_spec j 0); [lia |]. rewrite andb_false_r. reflexivity. }
  unfold cosHalfAngle. rewrite Hv1. unfold dotproduct. simpl. ring.
Qed.

(** A vertex at which the path turns straight back has opposite
    orthogonals, a zero bisector and a zero cosine. *)
Lemma reversal_vertex_cos (points : list Point) (closed : bool) (j : nat) (c : R) :
  closed = true \/ ((1 <= j)%nat /\ (j + 1 < length points)%nat) ->
  0 < c ->
  vdiff (point_at points j) (point_at points (next_index (length points) j)) =
    vscalmul (vdiff (point_at points (prev_index (length points) j))
                    (point_at points j)) (- c) ->
  bisector points closed j = (0, 0) /\ cosHalfAngle points closed j = 0.
Proof.
  intros Hside Hc Hrev.
  assert (Hv1 : spec_v1 points closed j = incoming_normal points j).
  { unfold spec_v1. replace (negb closed && (j =? 0)%nat) with false; [reflexivity |].
    destruct Hside as [-> | [Hj _]]; [reflexivity |].
    destruct (Nat.eqb_spec j 0); [lia |]. rewrite andb_false_r. reflexivity. }
  assert (Hv2 : spec_v2 points closed j = outgoing_normal points j).
  { unfold spec_v2.
    replace (negb closed && (j =? length points - 1)%nat) with false; [reflexivity |].
    destruct Hside as [-> | [_ Hj]]; [reflexivity |].
    destruct (Nat.eqb_spec j (length points - 1)); [lia |].
    rewrite andb_false_r. reflexivity. }
  assert (Hd : bisector points closed j = (0, 0)).
  { unfold bisector. rewrite Hv1, Hv2.
    unfold incoming_normal, outgoing_normal, edge_normal.
    rewrite Hrev, normalize_val_scale_neg by exact Hc.
    unfold vadd, vorthogonal, vscalmul. simpl.
    apply normalize_val_null; ring. }
  split; [exact Hd |].
  unfold cosHalfAngle. rewrite Hd. unfold dotproduct. simpl. ring.
Qed.

(** C2, as the code has it.  At a vertex from which the path goes straight
    back to the point it came from (the next vertex is the previous one, as
    in [(0,0), (1,0), (0,0)]), and that is not an end of an open path, the
    outgoing edge is the exact opposite of the incoming edge: the two
    orthogonals cancel, the bisector is the zero vector and the cosine is
    0.  [kerf] stops by raising [ZeroDivisionError], and returns no
    path. *)
Theorem kerf_reversal_raises (points : list Point) (k : R) (closed : bool)
        (j : nat) :
  (j < length points)%nat ->
  closed = true \/ ((1 <= j)%nat /\ (j + 1 < length points)%nat) ->
  point_at points (prev_index (length points) j) <> point_at points j ->
  point_at points (next_index (length points) j) =
    point_at points (prev_index (length points) j) ->
  bisector points closed j = (0, 0) /\
  cosHalfAngle points closed j = 0 /\
  kerf points k closed = Raise ZeroDivisionError.
Proof.
  intros Hj Hside _ Hback.
  assert (Hrev :
    vdiff (point_at points j) (point_at points (next_index (length points) j)) =
    vscalmul (vdiff (point_at points (prev_index (length points) j))
                    (point_at points j)) (- (1))).
  { rewrite Hback.
    destruct (point_at points (prev_index (length points) j)) as [px py].
    destruct (point_at points j) as [qx qy].
    unfold vdiff, vscalmul. cbn [fst snd]. f_equal; ring. }
  destruct (reversal_vertex_cos points closed j 1 Hside Rlt_0_1 Hrev)
    as [Hd Hcos].
  split; [exact Hd |]. split; [exact Hcos |].
  apply (kerf_raise points k closed j Hj Hcos).
Qed.

Lemma kerf_reversal_raises_witness :
  (1 < length reversal)%nat /\
  point_at reversal (prev_index (length reversal) 1) <> point_at reversal 1 /\
  point_at reversal (next_index (length reversal) 1) =
    point_at reversal (prev_index (length reversal) 1) /\
  bisector reversal true 1 = (0, 0) /\
  cosHalfAngle reversal true 1 = 0 /\
  kerf reversal (1 / 10) true = Raise ZeroDivisionError.
Proof.
  assert (Hne : point_at reversal (prev_index (length reversal) 1)
                <> point_at reversal 1).
  { cbn. intros H. inversion H. lra. }
  assert (Hback : point_at reversal (next_index (length reversal) 1) =
                  point_at reversal (prev_index (length reversal) 1))
    by reflexivity.
  split; [cbn; lia |]. split; [exact Hne |]. split; [exact Hback |].
  apply (kerf_reversal_raises reversal (1 / 10) true 1);
    [cbn; lia | left; reflexivity | exact Hne | exact Hback].
Defined.

(** C2, as stated, fails on its own example: on [(0,0), (1,0), (0,0)]
    [kerf] raises [ZeroDivisionError], closed or open, and returns no
    value. *)
Lemma kerf_reversal_counterexample :
  kerf reversal (1 / 10) true = Raise ZeroDivisionError /\
  kerf reversal (1 / 10) false = Raise ZeroDivisionError /\
  forall (closed : bool) (out : list Point),
    kerf reversal (1 / 10) closed <> Ok out.
Proof.
  assert (Hrev : forall closed, kerf reversal (1 / 10) closed = Raise ZeroDivisionError).
  { intros closed. apply (kerf_raise reversal (1 / 10) closed 1); [cbn; lia |].
    apply (reversal_vertex_cos reversal closed 1 1).
    - destruct closed; [left; reflexivity | right; cbn; lia].
    - lra.
    - cbn. unfold vdiff, vscalmul. cbn. f_equal; lra. }
  split; [apply Hrev |]. split; [apply Hrev |].
  intros closed out. rewrite Hrev. discriminate.
Qed.

(** C10.  A vertex equal to its predecessor (cyclically in a closed path,
    from the second vertex on in an open one) makes [kerf] raise
    [ZeroDivisionError], whatever [k] is: the incoming orthogonal is the
    zero vector and so is the cosine.  Every closed one-point path is such
    a path. *)
Theorem kerf_duplicate_vertex_raises :
  (forall (points : list Point) (k : R) (closed : bool) (j : nat),
     (j < length points)%nat ->
     closed = true \/ (1 <= j)%nat ->
     point_at points (prev_index (length points) j) = point_at points j ->
     normalize (vdiff (point_at points (prev_index (length points) j))
                      (point_at points j)) = Ok (0, 0) /\
     cosHalfAngle points closed j = 0 /\
     kerf points k closed = Raise ZeroDivisionError) /\
  (forall (p : Point) (k : R), kerf [p] k true = Raise ZeroDivisionError).
Proof.
  assert (Hgen : forall (points : list Point) (k : R) (closed : bool) (j : nat),
     (j < length points)%nat ->
     closed = true \/ (1 <= j)%nat ->
     point_at points (prev_index (length points) j) = point_at points j ->
     normalize (vdiff (point_at points (prev_index (length points) j))
                      (point_at points j)) = Ok (0, 0) /\
     cosHalfAngle points closed j = 0 /\
     kerf points k closed = Raise ZeroDivisionError).
  { intros points k closed j Hj Hside Hdup.
    pose proof (duplicate_vertex_cos points closed j Hside Hdup) as Hcos.
    split; [| split; [exact Hcos | apply (kerf_raise points k closed j Hj Hcos)]].
    rewrite Hdup, normalize_ok.
    replace (vdiff (point_at points j) (point_at points j)) with ((0, 0) : Vector)
      by (symmetry; apply vdiff_zero_iff; reflexivity).
    rewrite normalize_val_zero. reflexivity. }
  split; [exact Hgen |].
  intros p k.
  apply (Hgen [p] k true 0%nat); [cbn; lia | left; reflexivity | reflexivity].
Qed.

Lemma kerf_duplicate_vertex_raises_witness :
  (2 < length doubled)%nat /\
  point_at doubled (prev_index (length doubled) 2) = point_at doubled 2 /\
  normalize (vdiff (point_at doubled (prev_index (length doubled) 2))
                   (point_at doubled 2)) = Ok (0, 0) /\
  cosHalfAngle doubled false 2 = 0 /\
  kerf doubled 0 false = Raise ZeroDivisionError.
Proof.
  split; [cbn; lia |]. split; [reflexivity |].
  apply (proj1 kerf_duplicate_vertex_raises doubled 0 false 2%nat);
    [cbn; lia | right; lia | reflexivity].
Defined.

(** ** The miter construction at a vertex of a regular polygon *)

Section MiterCore.

Variables (points : list Point) (i : nat).
Variables cx cy rho C S cd sd m sdl sigma : R.

Hypothesis HCS : C * C + S * S = 1.
Hypothesis Hcs : cd * cd + sd * sd = 1.
Hypothesis Hm : 0 < m.
Hypothesis Hm2 : m * m = 2 - 2 * cd.
Hypothesis Hrho : 0 < rho.
Hypothesis Hsig : sigma * sigma = 1.
Hypothesis Hsd : sd = sigma * sdl.
Hypothesis Hsdl : 0 < sdl.

Hypothesis Hprev :
  point_at points (prev_index (length points) i) =
  (cx + rho * (C * cd + S * sd), cy + rho * (S * cd - C * sd)).
Hypothesis Hcur : point_at points i = (cx + rho * C, cy + rho * S).
Hypothesis Hnext :
  point_at points (next_index (length points) i) =
  (cx + rho * (C * cd - S * sd), cy + rho * (S * cd + C * sd)).

Lemma miter_edge_length :
  rho * rho * ((C * C + S * S) * ((cd * cd + sd * sd) + 1 - 2 * cd)) =
  rho * m * (rho * m).
Proof. rewrite HCS, Hcs. replace (1 + 1 - 2 * cd) with (m * m) by lra. ring. Qed.

Lemma miter_incoming :
  spec_v1 points true i =
  (- (S * (1 - cd) + C * sd) / m, (C * (1 - cd) - S * sd) / m).
Proof.
  unfold spec_v1, incoming_normal. cbn [negb andb]. rewrite Hprev, Hcur.
  apply (edge_normal_eq _ _ _ (rho * m)); cbn [fst snd].
  - apply Rmult_lt_0_compat; assumption.
  - rewrite <- miter_edge_length. unfold sq. ring.
  - field. lra.
  - field. lra.
Qed.

Lemma miter_outgoing :
  spec_v2 points true i =
  ((S * (1 - cd) - C * sd) / m, (- C * (1 - cd) - S * sd) / m).
Proof.
  unfold spec_v2, outgoing_normal. cbn [negb andb]. rewrite Hnext, Hcur.
  apply (edge_normal_eq _ _ _ (rho * m)); cbn [fst snd].
  - apply Rmult_lt_0_compat; assumption.
  - rewrite <- miter_edge_length. unfold sq. ring.
  - field. lra.
  - field. lra.
Qed.

(** The bisector points along the radius, the cosine is [sdl / m], and the
    vertex moves along the radius by [sigma * k * m / sdl]. *)
Lemma miter_vertex (k : R) :
  cosHalfAngle points true i = sdl / m /\
  kerf_spec_point points k true i =
    (cx + (rho + sigma * k * m / sdl) * C, cy + (rho + sigma * k * m / sdl) * S).
Proof.
  destruct (vertex_eval points k true i _ _
              (- sigma * C, - sigma * S) (2 * sdl / m) (sdl / m)
              miter_incoming miter_outgoing)
    as [_ [Hc Hp]]; cbn [fst snd].
  - apply Rdiv_lt_0_compat; lra.
  - unfold sq.
    transitivity (4 * (sd * sd) * (C * C + S * S) / (m * m)); [field; lra |].
    rewrite HCS, Hsd.
    transitivity (4 * (sigma * sigma) * (sdl * sdl) / (m * m)); [field; lra |].
    rewrite Hsig. field. lra.
  - rewrite Hsd. field. lra.
  - rewrite Hsd. field. lra.
  - unfold dotproduct. cbn [fst snd].
    transitivity (sigma * sd * (C * C + S * S) / m); [field; lra |].
    rewrite HCS, Hsd.
    transitivity (sigma * sigma * sdl / m); [field; lra |].
    rewrite Hsig. field. lra.
  - split; [exact Hc |]. rewrite Hp, Hcur.
    unfold vadd, vscalmul. cbn [fst snd]. f_equal; field; lra.
Qed.

End MiterCore.

(** ** Regular polygons *)

Lemma cos_turn (x sigma : R) :
  sigma = 1 \/ sigma = -1 -> cos (x + sigma * (2 * PI)) = cos x.
Proof.
  intros [-> | ->].
  - rewrite Rmult_1_l, cos_plus, cos_2PI, sin_2PI. ring.
  - replace (x + -1 * (2 * PI)) with (x - 2 * PI) by ring.
    rewrite cos_minus, cos_2PI, sin_2PI. ring.
Qed.

Lemma sin_turn (x sigma : R) :
  sigma = 1 \/ sigma = -1 -> sin (x + sigma * (2 * PI)) = sin x.
Proof.
  intros [-> | ->].
  - rewrite Rmult_1_l, sin_plus, cos_2PI, sin_2PI. ring.
  - replace (x + -1 * (2 * PI)) with (x - 2 * PI) by ring.
    rewrite sin_minus, cos_2PI, sin_2PI. ring.
Qed.

Section RegularPolygon.

Variables (n : nat) (c : Point) (theta sigma : R).

Hypothesis Hn : (3 <= n)%nat.
Hypothesis Hsigma : sigma = 1 \/ sigma = -1.

Let h := PI / INR n.
Let delta := 2 * h.
Let angle (i : nat) := theta + sigma * (2 * PI * INR i / INR n).

Lemma INR_n_ge_3 : 3 <= INR n.
Proof. replace 3 with (INR 3) by (simpl; lra). apply le_INR, Hn. Qed.

Lemma half_angle_bounds : 0 < h < PI / 2.
Proof.
  pose proof INR_n_ge_3 as H3. pose proof PI_RGT_0 as Hpi. unfold h. split.
  - apply Rdiv_lt_0_compat; lra.
  - apply (Rmult_lt_reg_r (INR n)); [lra |].
    unfold Rdiv. rewrite Rmult_assoc, Rinv_l by lra. nra.
Qed.

Lemma sin_half_pos : 0 < sin h.
Proof.
  pose proof half_angle_bounds. pose proof PI_RGT_0.
  apply sin_gt_0; lra.
Qed.

Lemma cos_half_pos : 0 < cos h.
Proof.
  pose proof half_angle_bounds. pose proof PI_RGT_0.
  apply cos_gt_0; lra.
Qed.

Lemma cos_step : cos (sigma * delta) = 1 - 2 * sin h * sin h.
Proof.
  unfold delta. destruct Hsigma as [-> | ->].
  - rewrite Rmult_1_l. apply cos_2a_sin.
  - replace (-1 * (2 * h)) with (- (2 * h)) by ring.
    rewrite cos_neg. apply cos_2a_sin.
Qed.

Lemma sin_step : sin (sigma * delta) = sigma * (2 * sin h * cos h).
Proof.
  unfold delta. destruct Hsigma as [-> | ->].
  - rewrite !Rmult_1_l. apply sin_2a.
  - replace (-1 * (2 * h)) with (- (2 * h)) by ring.
    rewrite sin_neg, sin_2a. ring.
Qed.

Lemma regular_polygon_length (rho : R) :
  length (regular_polygon n c rho theta sigma) = n.
Proof. unfold regular_polygon. rewrite length_map, length_seq. reflexivity. Qed.

Lemma regular_polygon_point (rho : R) (i : nat) :
  (i < n)%nat ->
  point_at (regular_polygon n c rho theta sigma) i =
  (fst c + rho * cos (angle i), snd c + rho * sin (angle i)).
Proof.
  intros Hi. unfold point_at, regular_polygon.
  rewrite (nth_indep _ (0, 0)
             (vadd c (circlepoint rho (theta + sigma * (2 * PI * INR 0 / INR n)))))
    by (rewrite length_map, length_seq; exact Hi).
  rewrite (map_nth (fun j => vadd c (circlepoint rho
                      (theta + sigma * (2 * PI * INR j / INR n))))).
  rewrite seq_nth by exact Hi. reflexivity.
Qed.

Lemma angle_next (i : nat) :
  (i < n)%nat ->
  cos (angle (next_index n i)) = cos (angle i + sigma * delta) /\
  sin (angle (next_index n i)) = sin (angle i + sigma * delta).
Proof.
  intros Hi. pose proof INR_n_ge_3 as H3. unfold next_index.
  destruct (Nat.eq_dec (i + 1) n) as [Hlast | Hnl].
  - rewrite Hlast, Nat.Div0.mod_same.
    assert (Ha : angle i + sigma * delta = angle 0 + sigma * (2 * PI)).
    { assert (Hi1 : INR i = INR n - 1)
        by (rewrite <- Hlast, plus_INR; simpl INR; lra).
      unfold angle, delta, h. rewrite Hi1. simpl INR. field. lra. }
    rewrite Ha, cos_turn, sin_turn by exact Hsigma. split; reflexivity.
  - rewrite Nat.mod_small by lia.
    assert (Ha : angle (i + 1) = angle i + sigma * delta).
    { unfold angle, delta, h. rewrite plus_INR. simpl INR. field. lra. }
    rewrite Ha. split; reflexivity.
Qed.

Lemma angle_prev (i : nat) :
  (i < n)%nat ->
  cos (angle (prev_index n i)) = cos (angle i - sigma * delta) /\
  sin (angle (prev_index n i)) = sin (angle i - sigma * delta).
Proof.
  intros Hi. pose proof INR_n_ge_3 as H3. unfold prev_index.
  destruct i as [| i].
  - replace (0 + n - 1)%nat with (n - 1)%nat by lia.
    rewrite Nat.mod_small by lia.
    assert (Ha : angle (n - 1) = angle 0 - sigma * delta + sigma * (2 * PI)).
    { unfold angle, delta, h. rewrite minus_INR by lia. simpl INR. field. lra. }
    rewrite Ha, cos_turn, sin_turn by exact Hsigma. split; reflexivity.
  - replace (S i + n - 1)%nat with (i + 1 * n)%nat by lia.
    rewrite Nat.Div0.mod_add, Nat.mod_small by lia.
    assert (Ha : angle i = angle (S i) - sigma * delta).
    { unfold angle, delta, h. rewrite S_INR. field. lra. }
    rewrite Ha. split; reflexivity.
Qed.

(** At every vertex of a regular polygon the cosine is cos(pi/n) and the
    vertex moves along its radius. *)
Lemma regular_polygon_vertex (rho k : R) (i : nat) :
  0 < rho -> (i < n)%nat ->
  cosHalfAngle (regular_polygon n c rho theta sigma) true i = cos h /\
  kerf_spec_point (regular_polygon n c rho theta sigma) k true i =
    (fst c + (rho + sigma * k / cos h) * cos (angle i),
     snd c + (rho + sigma * k / cos h) * sin (angle i)).
Proof.
  intros Hrho Hi.
  pose proof sin_half_pos as Hsh. pose proof cos_half_pos as Hch.
  destruct (angle_next i Hi) as [Hnc Hns].
  destruct (angle_prev i Hi) as [Hpc Hps].
  destruct (miter_vertex (regular_polygon n c rho theta sigma) i
              (fst c) (snd c) rho (cos (angle i)) (sin (angle i))
              (cos (sigma * delta)) (sin (sigma * delta))
              (2 * sin h) (2 * sin h * cos h) sigma) with (k := k)
    as [Hc Hp].
  - pose proof (sin2_cos2 (angle i)) as H. unfold Rsqr in H. lra.
  - pose proof (sin2_cos2 (sigma * delta)) as H. unfold Rsqr in H. lra.
  - lra.
  - rewrite cos_step. ring.
  - exact Hrho.
  - destruct Hsigma as [-> | ->]; ring.
  - apply sin_step.
  - apply Rmult_lt_0_compat; lra.
  - rewrite regular_polygon_length.
    rewrite regular_polygon_point by (apply prev_index_lt; lia).
    rewrite Hpc, Hps, cos_minus, sin_minus. reflexivity.
  - apply regular_polygon_point, Hi.
  - rewrite regular_polygon_length.
    rewrite regular_polygon_point by (apply next_index_lt; lia).
    rewrite Hnc, Hns, cos_plus, sin_plus. reflexivity.
  - split.
    + rewrite Hc. field. lra.
    + rewrite Hp. f_equal; f_equal; f_equal; field; split; lra.
Qed.

(** Offsetting a regular polygon by [k] changes its circumradius by
    [sigma * k / cos (pi/n)] and nothing else. *)
Lemma kerf_regular_polygon (rho k : R) :
  0 < rho ->
  kerf (regular_polygon n c rho theta sigma) k true =
  Ok (regular_polygon n c (rho + sigma * k / cos h) theta sigma).
Proof.
  intros Hrho. pose proof cos_half_pos as Hch. rewrite kerf_ok.
  - f_equal. unfold kerf_spec. rewrite regular_polygon_length.
    unfold regular_polygon at 2. apply map_ext_in.
    intros i Hi. apply in_seq in Hi.
    destruct (regular_polygon_vertex rho k i Hrho ltac:(lia)) as [_ Hp].
    rewrite Hp. reflexivity.
  - intros i Hi. rewrite regular_polygon_length in Hi.
    destruct (regular_polygon_vertex rho k i Hrho Hi) as [Hc _].
    rewrite Hc. lra.
Qed.

End RegularPolygon.

(** C5.  Round trip on regular polygons.  For a regular [n]-gon
    ([n >= 3], either orientation) and an offset [k] smaller in absolute
    value than the apothem [rho * cos (pi/n)], offsetting by [k] gives the
    regular polygon of circumradius [rho + sigma * k / cos (pi/n)], and
    offsetting that by [-k] gives back the original vertex list. *)
Theorem kerf_round_trip_regular_polygon
        (n : nat) (c : Point) (rho theta sigma k : R) :
  (3 <= n)%nat -> 0 < rho -> sigma = 1 \/ sigma = -1 ->
  Rabs k < rho * cos (PI / INR n) ->
  exists out : list Point,
    kerf (regular_polygon n c rho theta sigma) k true = Ok out /\
    out = regular_polygon n c (rho + sigma * k / cos (PI / INR n)) theta sigma /\
    kerf out (- k) true = Ok (regular_polygon n c rho theta sigma).
Proof.
  intros Hn Hrho Hsigma Hk.
  pose proof (cos_half_pos n Hn) as Hch. cbn zeta in Hch.
  apply Rabs_def2 in Hk. destruct Hk as [Hk1 Hk2].
  assert (Hrho' : 0 < rho + sigma * k / cos (PI / INR n)).
  { replace (rho + sigma * k / cos (PI / INR n))
      with ((rho * cos (PI / INR n) + sigma * k) / cos (PI / INR n))
      by (field; lra).
    apply Rdiv_lt_0_compat; [| exact Hch].
    destruct Hsigma as [-> | ->]; lra. }
  eexists. split; [| split; [reflexivity |]].
  - apply (kerf_regular_polygon n c theta sigma Hn Hsigma rho k Hrho).
  - pose proof (kerf_regular_polygon n c theta sigma Hn Hsigma
                  (rho + sigma * k / cos (PI / INR n)) (- k) Hrho') as Hback.
    cbn zeta in Hback. rewrite Hback. do 2 f_equal. field. lra.
Qed.

Lemma kerf_round_trip_regular_polygon_witness :
  (3 <= 4)%nat /\ 0 < 1 /\ (1 = 1 \/ 1 = -1) /\
  Rabs (1 / 10) < 1 * cos (PI / INR 4) /\
  exists out : list Point,
    kerf (regular_polygon 4 (0, 0) 1 0 1) (1 / 10) true = Ok out /\
    out = regular_polygon 4 (0, 0) (1 + 1 * (1 / 10) / cos (PI / INR 4)) 0 1 /\
    kerf out (- (1 / 10)) true = Ok (regular_polygon 4 (0, 0) 1 0 1).
Proof.
  assert (Hk : Rabs (1 / 10) < 1 * cos (PI / INR 4)).
  { replace (INR 4) with 4 by (simpl; lra).
    rewrite cos_PI4, Rabs_pos_eq by lra.
    pose proof sqrt2_sqr as Hs. pose proof sqrt2_pos as Hp.
    apply (Rmult_lt_reg_r (sqrt 2)); [exact Hp |].
    replace (1 * (1 / sqrt 2) * sqrt 2) with 1 by (field; lra). nra. }
  split; [lia |]. split; [lra |]. split; [left; reflexivity |].
  split; [exact Hk |].
  apply (kerf_round_trip_regular_polygon 4 (0, 0) 1 0 1 (1 / 10));
    [lia | lra | left; reflexivity | exact Hk].
Defined.

(** ** More on the vector primitives *)

Lemma vlength_vscalmul (v : Vector) (a : R) :
  vlength (vscalmul v a) = Rabs a * vlength v.
Proof.
  pose proof (vlength_nonneg v) as Hp. pose proof (vlength_sqr v) as Hs.
  destruct v as [x y]. unfold vscalmul. cbn [fst snd] in *.
  apply vlength_of_sqr.
  - apply Rmult_le_pos; [apply Rabs_pos | exact Hp].
  - unfold sq in *.
    replace (Rabs a * vlength (x, y) * (Rabs a * vlength (x, y)))
      with (Rabs a * Rabs a * (vlength (x, y) * vlength (x, y))) by ring.
    rewrite Hs. 
    replace (Rabs a * Rabs a) with (a * a)
      by (unfold Rabs; destruct (Rcase_abs a); ring).
    ring.
Qed.

Lemma vlength_pos (v : Vector) : v <> (0, 0) -> 0 < vlength v.
Proof.
  intros Hne. pose proof (vlength_nonneg v) as Hp.
  destruct (Req_dec_T (vlength v) 0) as [Hz | Hnz]; [| lra].
  exfalso. apply Hne, vlength_zero_iff, Hz.
Qed.

Lemma vclip_returns_min (v : Vector) (L : R) :
  0 <= L ->
  exists u : Vector, vclip v L = Ok u /\ vlength u = Rmin (vlength v) L.
Proof.
  intros HL. pose proof (vlength_nonneg v) as Hp. unfold vclip.
  destruct (Rlt_dec L (vlength v)) as [Hlt | Hge].
  - unfold truediv. destruct (Req_dec_T (vlength v) 0) as [Hz | Hnz]; [lra |].
    cbn [bind]. eexists. split; [reflexivity |].
    rewrite vlength_vscalmul, Rmin_right by lra.
    rewrite Rabs_pos_eq by (apply Rmult_le_pos; [lra | left; apply Rinv_0_lt_compat; lra]).
    field. exact Hnz.
  - exists v. split; [reflexivity |]. rewrite Rmin_left by lra. reflexivity.
Qed.

(** X1.  Clipping to a non-negative length never raises and gives a vector
    of length [min (length v) L]. *)
Theorem vclip_length (v : Vector) (L : R) :
  0 <= L ->
  exists u : Vector, vclip v L = Ok u /\ vlength u = Rmin (vlength v) L.
Proof. exact (vclip_returns_min v L). Qed.

Lemma vclip_length_witness :
  0 <= 1 /\
  exists u : Vector, vclip (3, 4) 1 = Ok u /\ vlength u = Rmin (vlength (3, 4)) 1.
Proof.
  split; [lra |]. apply (vclip_length (3, 4) 1). lra.
Defined.

(** X2.  A negative clip length is not rejected: the zero vector makes the
    division raise, any other vector comes back turned around, with length
    [- L]. *)
Theorem vclip_negative_length (L : R) :
  L < 0 ->
  vclip (0, 0) L = Raise ZeroDivisionError /\
  forall v : Vector, v <> (0, 0) ->
    exists u : Vector,
      vclip v L = Ok u /\ vlength u = - L /\ dotproduct u v < 0.
Proof.
  intros HL. split.
  - unfold vclip.
    assert (Hz : vlength (0, 0) = 0) by (apply vlength_zero_iff; reflexivity).
    rewrite Hz. destruct (Rlt_dec L 0) as [_ | Hn]; [| lra].
    unfold truediv. destruct (Req_dec_T 0 0) as [_ | Hn]; [reflexivity | lra].
  - intros v Hne. pose proof (vlength_pos v Hne) as Hp.
    pose proof (vlength_sqr v) as Hs.
    unfold vclip. destruct (Rlt_dec L (vlength v)) as [_ | Hn]; [| lra].
    unfold truediv. destruct (Req_dec_T (vlength v) 0) as [Hz | Hnz]; [lra |].
    cbn [bind]. eexists. split; [reflexivity |]. split.
    + rewrite vlength_vscalmul.
      rewrite Rabs_left
        by (apply Ropp_lt_cancel; rewrite Ropp_0;
            replace (- (L / vlength v)) with (- L / vlength v) by (field; lra);
            apply Rdiv_lt_0_compat; lra).
      field. exact Hnz.
    + unfold dotproduct, vscalmul. cbn [fst snd]. unfold sq in Hs.
      replace (L / vlength v * fst v * fst v + L / vlength v * snd v * snd v)
        with (L / vlength v * (vlength v * vlength v)) by (rewrite Hs; ring).
      replace (L / vlength v * (vlength v * vlength v)) with (L * vlength v)
        by (field; lra).
      nra.
Qed.

Lemma vclip_negative_length_witness :
  -1 < 0 /\
  vclip (0, 0) (-1) = Raise ZeroDivisionError /\
  forall v : Vector, v <> (0, 0) ->
    exists u : Vector,
      vclip v (-1) = Ok u /\ vlength u = - -1 /\ dotproduct u v < 0.
Proof.
  split; [lra |]. apply (vclip_negative_length (-1)). lra.
Defined.

(** X3.  Clipping twice to the same non-negative length is clipping once. *)
Theorem vclip_idempotent (v : Vector) (L : R) :
  0 <= L ->
  (u <- vclip v L ;; vclip u L) = vclip v L.
Proof.
  intros HL. destruct (vclip_returns_min v L HL) as [u [Hu Hlen]].
  rewrite Hu. cbn [bind]. unfold vclip at 1.
  destruct (Rlt_dec L (vlength u)) as [Hlt | _]; [| reflexivity].
  exfalso. rewrite Hlen in Hlt. pose proof (Rmin_r (vlength v) L). lra.
Qed.

Lemma vclip_idempotent_witness :
  0 <= 1 /\ (u <- vclip (3, 4) 1 ;; vclip u 1) = vclip (3, 4) 1.
Proof.
  split; [lra |]. apply (vclip_idempotent (3, 4) 1). lra.
Defined.

(** X4.  [vorthogonal] is a quarter turn: the result is perpendicular to
    the argument, has the same length, and two turns give the opposite
    vector. *)
Theorem vorthogonal_quarter_turn (v : Vector) :
  dotproduct v (vorthogonal v) = 0 /\
  vlength (vorthogonal v) = vlength v /\
  vorthogonal (vorthogonal v) = vscalmul v (-1).
Proof.
  destruct v as [x y]. unfold dotproduct, vorthogonal, vscalmul, vlength, sq.
  cbn [fst snd]. split; [ring |]. split; f_equal; ring.
Qed.

(** X5.  [vdiff p q] is the vector that [vadd] takes from [p] to [q], and
    swapping the two points negates it. *)
Theorem vdiff_vadd_round_trip (p q : Point) (v : Vector) :
  vadd p (vdiff p q) = q /\
  vdiff p (vadd p v) = v /\
  vdiff q p = vscalmul (vdiff p q) (-1) /\
  vlength (vadd v (vscalmul v (-1))) = 0.
Proof.
  destruct p as [px py], q as [qx qy], v as [x y].
  unfold vadd, vdiff, vscalmul. cbn [fst snd].
  split; [f_equal; ring |]. split; [f_equal; ring |]. split; [f_equal; ring |].
  apply vlength_zero_iff. f_equal; ring.
Qed.

(** X6.  The result of [normalize], scaled back by the length of the
    argument, is the argument; the zero vector included. *)
Theorem normalize_rescale (v : Vector) :
  exists u : Vector, normalize v = Ok u /\ vscalmul u (vlength v) = v.
Proof.
  exists (normalize_val v). split; [apply normalize_ok |].
  unfold normalize_val. destruct (Req_dec_T (vlength v) 0) as [Hz | Hnz].
  - rewrite Hz. apply vlength_zero_iff in Hz. subst v.
    unfold vscalmul. cbn [fst snd]. f_equal; ring.
  - destruct v as [x y]. unfold vscalmul. cbn [fst snd] in *.
    f_equal; field; exact Hnz.
Qed.

(** X7.  Normalising twice is normalising once. *)
Theorem normalize_idempotent (v : Vector) :
  (u <- normalize v ;; normalize u) = normalize v.
Proof.
  rewrite normalize_ok. cbn [bind]. rewrite normalize_ok. f_equal.
  destruct (Req_dec_T (vlength v) 0) as [Hz | Hnz].
  - apply vlength_zero_iff in Hz. subst v.
    rewrite normalize_val_zero. apply normalize_val_zero.
  - pose proof (normalize_val_unit v Hnz) as Hu.
    unfold normalize_val at 1. rewrite Hu.
    destruct (Req_dec_T 1 0) as [H | _]; [lra |].
    destruct (normalize_val v) as [a b]. cbn [fst snd]. f_equal; field.
Qed.

(** X8.  [normalize] only sees the direction: a positive factor changes
    nothing, a negative factor turns the result around. *)
Theorem normalize_scale (v : Vector) (a : R) :
  a <> 0 ->
  normalize (vscalmul v a) =
  (u <- normalize v ;; Ok (if Rlt_dec 0 a then u else vscalmul u (-1))).
Proof.
  intros Ha. rewrite !normalize_ok. cbn [bind]. f_equal.
  destruct (Rlt_dec 0 a) as [Hpos | Hneg].
  - apply normalize_val_scale, Hpos.
  - replace a with (- - a) by ring.
    apply normalize_val_scale_neg. lra.
Qed.

Lemma normalize_scale_witness :
  -2 <> 0 /\
  normalize (vscalmul (3, 4) (-2)) =
  (u <- normalize (3, 4) ;; Ok (if Rlt_dec 0 (-2) then u else vscalmul u (-1))).
Proof.
  split; [lra |]. apply (normalize_scale (3, 4) (-2)). lra.
Defined.

(** X9.  [circlepoint r a] lies at distance [|r|] from the origin, a full
    turn of the angle changes nothing, and half a turn gives the opposite
    point. *)
Theorem circlepoint_on_circle (r a : R) :
  vlength (circlepoint r a) = Rabs r /\
  circlepoint r (a + 2 * PI) = circlepoint r a /\
  circlepoint r (a + PI) = vscalmul (circlepoint r a) (-1).
Proof.
  unfold circlepoint. split; [| split].
  - apply vlength_of_sqr; [apply Rabs_pos |]. unfold sq.
    pose proof (sin2_cos2 a) as H. unfold Rsqr in H.
    replace (r * cos a * (r * cos a) + r * sin a * (r * sin a))
      with (r * r * (sin a * sin a + cos a * cos a)) by ring.
    rewrite H. unfold Rabs. destruct (Rcase_abs r); ring.
  - rewrite cos_plus, sin_plus, cos_2PI, sin_2PI. f_equal; ring.
  - rewrite cos_plus, sin_plus, cos_PI, sin_PI.
    unfold vscalmul. cbn [fst snd]. f_equal; ring.
Qed.

(** ** More on the matrices *)

Ltac mat_eq :=
  repeat match goal with
         | |- Ok _ = Ok _ => apply f_equal
         | |- _ :: _ = _ :: _ => apply f_equal2
         | |- @eq (list _) [] [] => reflexivity
         | |- @eq R _ _ => ring
         end.

Lemma sin_cos_sqr (a : R) : sin a * sin a + cos a * cos a = 1.
Proof. pose proof (sin2_cos2 a) as H. unfold Rsqr in H. exact H. Qed.

(** X10.  Rotating by [angle] and then by [- angle] gives the point back,
    and a rotation keeps the distance to the origin. *)
Theorem rotm_round_trip (angle x y : R) :
  (q <- vtransl [x; y] (rotm angle) ;; vtransl q (rotm (- angle))) = Ok [x; y] /\
  exists x' y' : R,
    vtransl [x; y] (rotm angle) = Ok [x'; y'] /\
    vlength (x', y') = vlength (x, y).
Proof.
  pose proof (sin_cos_sqr angle) as H. split.
  - unfold rotm. py_eval. rewrite cos_neg, sin_neg.
    do 2 f_equal; [| f_equal].
    + transitivity (x * (sin angle * sin angle + cos angle * cos angle));
        [ring | rewrite H; ring].
    + transitivity (y * (sin angle * sin angle + cos angle * cos angle));
        [ring | rewrite H; ring].
  - unfold rotm. py_eval. do 2 eexists. split; [reflexivity |].
    unfold vlength, sq. cbn [fst snd]. f_equal.
    transitivity ((x * x + y * y) * (sin angle * sin angle + cos angle * cos angle));
      [ring | rewrite H; ring].
Qed.

(** X11.  Rotating the point of a circle at angle [b] by [a] gives the
    point of the same circle at angle [a + b]. *)
Theorem rotm_circlepoint (r a b : R) :
  vtransl [fst (circlepoint r b); snd (circlepoint r b)] (rotm a) =
  Ok [fst (circlepoint r (a + b)); snd (circlepoint r (a + b))].
Proof.
  unfold rotm, circlepoint. cbn [fst snd]. py_eval.
  rewrite cos_plus, sin_plus. mat_eq.
Qed.

(** X12.  The product of two rotation matrices is the rotation matrix of
    the sum of the angles. *)
Theorem mmul_rotm (a b : R) :
  mmul (rotm a) (rotm b) = Ok (rotm (a + b)).
Proof.
  unfold rotm. rewrite mmul_2x3, cos_plus, sin_plus. mat_eq.
Qed.

(** X13.  [mmul] is associative on 2x3 matrices. *)
Theorem mmul_assoc (a b c d e f a' b' c' d' e' f' a'' b'' c'' d'' e'' f'' : R) :
  let m0 := [[a; b; c]; [d; e; f]] in
  let m1 := [[a'; b'; c']; [d'; e'; f']] in
  let m2 := [[a''; b''; c'']; [d''; e''; f'']] in
  (m <- mmul m0 m1 ;; mmul m m2) = (m <- mmul m1 m2 ;; mmul m0 m).
Proof.
  intros m0 m1 m2. unfold m0, m1, m2.
  rewrite !mmul_2x3. cbn [bind]. rewrite !mmul_2x3. mat_eq.
Qed.

(** X14.  The matrix [[1,0,0],[0,1,0]] is a right identity of [mmul] but
    not a left one: on the left it erases the translation column. *)
Theorem mmul_identity (a b c d e f : R) :
  let m := [[a; b; c]; [d; e; f]] in
  let id := [[1; 0; 0]; [0; 1; 0]] in
  mmul m id = Ok m /\
  mmul id m = Ok (linear_part m).
Proof.
  intros m id. unfold m, id. rewrite !mmul_2x3. cbn [linear_part map].
  split; mat_eq.
Qed.

Lemma getitem_beyond {A : Type} (l : list A) (i : nat) :
  (length l <= i)%nat -> getitem l (Z.of_nat i) = Raise IndexError.
Proof.
  intros Hi. unfold getitem.
  destruct (Z.ltb_spec (Z.of_nat i) 0) as [Hneg | _]; [lia |].
  destruct (Z.ltb_spec (Z.of_nat i) 0) as [Hneg | _]; [lia |].
  destruct (Z.leb_spec (Z.of_nat (length l)) (Z.of_nat i)) as [_ | Hlt]; [| lia].
  reflexivity.
Qed.

Ltac getitem_cases :=
  repeat match goal with
         | |- context [getitem ?l (Z.of_nat ?i)] =>
             destruct (le_lt_dec (length l) i);
             [ rewrite (getitem_beyond l i) by assumption; cbn [bind]
             | rewrite (getitem_nat l 0 i) by assumption; cbn [bind] ]
         end.

(** X15.  The shapes [vtransl] accepts.  A matrix whose number of rows is
    not two raises [ValueError]; with two rows, a row of fewer than three
    entries or a vector of fewer than two raises [IndexError]; otherwise a
    two-element list is returned. *)
Theorem vtransl_shape (v : list R) (m : Matrix) :
  (length m <> 2%nat -> vtransl v m = Raise ValueError) /\
  (forall m0 m1 : list R, m = [m0; m1] ->
     ((length m0 < 3)%nat \/ (length m1 < 3)%nat \/ (length v < 2)%nat ->
        vtransl v m = Raise IndexError) /\
     ((3 <= length m0)%nat -> (3 <= length m1)%nat -> (2 <= length v)%nat ->
        exists x y : R, vtransl v m = Ok [x; y])).
Proof.
  split.
  - intros Hlen. destruct m as [| r0 [| r1 [| r2 m]]]; cbn in Hlen;
      try reflexivity. lia.
  - intros m0 m1 ->. unfold vtransl.
    change 0%Z with (Z.of_nat 0). change 1%Z with (Z.of_nat 1).
    change 2%Z with (Z.of_nat 2).
    split.
    + intros Hshort. getitem_cases; try reflexivity. exfalso. lia.
    + intros H0 H1 Hv. getitem_cases; try lia. do 2 eexists. reflexivity.
Qed.

Lemma vtransl_shape_witness :
  length [[1; 0; 0]] <> 2%nat /\
  vtransl [1; 2] [[1; 0; 0]] = Raise ValueError.
Proof.
  assert (H : length [[1; 0; 0]] <> 2%nat) by (cbn; lia).
  split; [exact H |].
  exact (proj1 (vtransl_shape [1; 2] [[1; 0; 0]]) H).
Defined.

(** X16.  [mmul] with an empty first matrix, or with an empty second
    matrix against a 2x3 first one, raises [IndexError]. *)
Theorem mmul_empty (a b c d e f : R) (m1 : Matrix) :
  mmul [] m1 = Raise IndexError /\
  mmul [[a; b; c]; [d; e; f]] [] = Raise IndexError.
Proof. split; reflexivity. Qed.

(** ** More on [tangent] *)

(** X17.  For a point other than the centre and a radius no larger in
    absolute value than its distance, [tangent] returns a tangent length
    [l2 >= 0] with [l2^2 + r^2 = x^2 + y^2]. *)
Theorem tangent_pythagoras (x y r : R) :
  (x, y) <> (0, 0) -> Rabs r <= vlength (x, y) ->
  exists a l2 : R,
    tangent x y r = Ok (a, l2) /\ 0 <= l2 /\ l2 * l2 + r * r = x * x + y * y.
Proof.
  intros Hne Hr. pose proof (vlength_pos (x, y) Hne) as Hp.
  pose proof (vlength_sqr (x, y)) as Hs. unfold sq in Hs. cbn [fst snd] in Hs.
  set (l1 := vlength (x, y)) in *.
  assert (Hq : -1 <= r / l1 <= 1).
  { assert (Hb : - l1 <= r <= l1)
      by (unfold Rabs in Hr; destruct (Rcase_abs r); lra).
    split.
    - apply (Rmult_le_reg_r l1); [exact Hp |].
      unfold Rdiv. rewrite Rmult_assoc, Rinv_l by lra. lra.
    - apply (Rmult_le_reg_r l1); [exact Hp |].
      unfold Rdiv. rewrite Rmult_assoc, Rinv_l by lra. lra. }
  unfold tangent. fold l1. unfold truediv.
  destruct (Req_dec_T l1 0) as [Hz | _]; [lra |]. cbn [bind].
  unfold math_asin.
  destruct (Rlt_dec (r / l1) (-1)) as [Hlt | _]; [lra |].
  destruct (Rlt_dec 1 (r / l1)) as [Hlt | _]; [lra |]. cbn [bind].
  do 2 eexists. split; [reflexivity |].
  rewrite (cos_asin (r / l1) Hq).
  assert (Hnn : 0 <= 1 - (r / l1)²).
  { unfold Rsqr. destruct Hq as [Hq1 Hq2]. nra. }
  split.
  - apply Rmult_le_pos; [apply sqrt_pos | lra].
  - replace (sqrt (1 - (r / l1)²) * l1 * (sqrt (1 - (r / l1)²) * l1))
      with (sqrt (1 - (r / l1)²) * sqrt (1 - (r / l1)²) * (l1 * l1)) by ring.
    rewrite sqrt_sqrt by exact Hnn. unfold Rsqr. rewrite <- Hs. field. lra.
Qed.

Lemma tangent_pythagoras_witness :
  (5, 0) <> (0, 0) /\ Rabs 3 <= vlength (5, 0) /\
  exists a l2 : R,
    tangent 5 0 3 = Ok (a, l2) /\ 0 <= l2 /\ l2 * l2 + 3 * 3 = 5 * 5 + 0 * 0.
Proof.
  assert (Hne : (5, 0) <> ((0, 0) : Vector)) by (intros H; inversion H; lra).
  assert (Hr : Rabs 3 <= vlength (5, 0)).
  { rewrite (vlength_of_sqr 5 0 5) by (unfold sq; lra).
    rewrite Rabs_pos_eq; lra. }
  split; [exact Hne |]. split; [exact Hr |].
  exact (tangent_pythagoras 5 0 3 Hne Hr).
Defined.

(** ** More on [kerf] *)

(** Either no vertex has a zero cosine or one has. *)
Lemma zero_cosine_dec (points : list Point) (closed : bool) (n : nat) :
  (forall i, (i < n)%nat -> cosHalfAngle points closed i <> 0) \/
  (exists i, (i < n)%nat /\ cosHalfAngle points closed i = 0).
Proof.
  induction n as [| n IH].
  - left. intros i Hi. lia.
  - destruct IH as [Hall | [i [Hi Hz]]].
    + destruct (Req_dec_T (cosHalfAngle points closed n) 0) as [Hz | Hnz].
      * right. exists n. split; [lia | exact Hz].
      * left. intros i Hi. destruct (Nat.eq_dec i n) as [-> | Hne];
          [exact Hnz | apply Hall; lia].
    + right. exists i. split; [lia | exact Hz].
Qed.

Lemma kerf_ok_inv (points : list Point) (k : R) (closed : bool) (out : list Point) :
  kerf points k closed = Ok out ->
  (forall i, (i < length points)%nat -> cosHalfAngle points closed i <> 0) /\
  out = kerf_spec points k closed.
Proof.
  intros Hout.
  destruct (zero_cosine_dec points closed (length points)) as [Hall | [j [Hj Hz]]].
  - split; [exact Hall |]. rewrite (kerf_ok points k closed Hall) in Hout.
    inversion Hout. reflexivity.
  - rewrite (kerf_raise points k closed j Hj Hz) in Hout. discriminate.
Qed.

Lemma kerf_spec_length (points : list Point) (k : R) (closed : bool) :
  length (kerf_spec points k closed) = length points.
Proof. unfold kerf_spec. rewrite length_map, length_seq. reflexivity. Qed.

Lemma kerf_spec_nth (points : list Point) (k : R) (closed : bool) (i : nat) :
  (i < length points)%nat ->
  nth i (kerf_spec points k closed) (0, 0) = kerf_spec_point points k closed i.
Proof.
  intros Hi. unfold kerf_spec.
  rewrite (nth_indep _ (0, 0) (kerf_spec_point points k closed 0))
    by (rewrite length_map, length_seq; exact Hi).
  rewrite (map_nth (kerf_spec_point points k closed)), seq_nth by exact Hi.
  reflexivity.
Qed.

Lemma map_point_at_seq (points : list Point) :
  map (point_at points) (seq 0 (length points)) = points.
Proof.
  apply (nth_ext _ _ (0, 0) (0, 0)).
  - rewrite length_map, length_seq. reflexivity.
  - intros i Hi. rewrite length_map, length_seq in Hi.
    rewrite (nth_indep _ (0, 0) (point_at points 0))
      by (rewrite length_map, length_seq; exact Hi).
    rewrite (map_nth (point_at points)), seq_nth by exact Hi. reflexivity.
Qed.

(** X18.  What [kerf] can do.  It raises [ZeroDivisionError] exactly when
    some vertex has a zero cosine, and returns a list as long as the input
    otherwise; it raises nothing else, and whether it raises does not
    depend on [k]. *)
Theorem kerf_outcome (points : list Point) (k : R) (closed : bool) :
  (kerf points k closed = Raise ZeroDivisionError <->
     exists i, (i < length points)%nat /\ cosHalfAngle points closed i = 0) /\
  ((exists out, kerf points k closed = Ok out /\ length out = length points) <->
     forall i, (i < length points)%nat -> cosHalfAngle points closed i <> 0) /\
  kerf points k closed <> Raise IndexError /\
  kerf points k closed <> Raise ValueError /\
  forall k' : R,
    kerf points k closed = Raise ZeroDivisionError <->
    kerf points k' closed = Raise ZeroDivisionError.
Proof.
  assert (Hraise : forall k0, kerf points k0 closed = Raise ZeroDivisionError <->
     exists i, (i < length points)%nat /\ cosHalfAngle points closed i = 0).
  { intros k0. split.
    - intros Hr.
      destruct (zero_cosine_dec points closed (length points)) as [Hall | Hex];
        [| exact Hex].
      rewrite (kerf_ok points k0 closed Hall) in Hr. discriminate.
    - intros [j [Hj Hz]]. apply (kerf_raise points k0 closed j Hj Hz). }
  split; [apply Hraise |]. split; [| split; [| split]].
  - split.
    + intros [out [Hout _]]. apply (kerf_ok_inv points k closed out Hout).
    + intros Hall. exists (kerf_spec points k closed).
      split; [apply kerf_ok, Hall | apply kerf_spec_length].
  - destruct (zero_cosine_dec points closed (length points)) as [Hall | [j [Hj Hz]]].
    + rewrite (kerf_ok points k closed Hall). discriminate.
    + rewrite (kerf_raise points k closed j Hj Hz). discriminate.
  - destruct (zero_cosine_dec points closed (length points)) as [Hall | [j [Hj Hz]]].
    + rewrite (kerf_ok points k closed Hall). discriminate.
    + rewrite (kerf_raise points k closed j Hj Hz). discriminate.
  - intros k'. rewrite (Hraise k), (Hraise k'). reflexivity.
Qed.

Lemma one_point_cosine (p : Point) (closed : bool) :
  cosHalfAngle [p] closed 0 = 0.
Proof.
  unfold cosHalfAngle.
  assert (Hv1 : spec_v1 [p] closed 0 = (-0, 0)).
  { unfold spec_v1, incoming_normal, outgoing_normal.
    destruct (negb closed && (0 =? 0)%nat); cbn; apply edge_normal_degenerate. }
  rewrite Hv1. unfold dotproduct. cbn [fst snd]. ring.
Qed.

(** X19.  Paths too short to have a corner.  The empty path gives the
    empty path; a one-point path raises, closed or open; a closed
    two-point path raises. *)
Theorem kerf_short_paths (p q : Point) (k : R) (closed : bool) :
  kerf [] k closed = Ok [] /\
  kerf [p] k closed = Raise ZeroDivisionError /\
  kerf [p; q] k true = Raise ZeroDivisionError.
Proof.
  split; [reflexivity |]. split.
  - apply (kerf_raise [p] k closed 0); [cbn; lia | apply one_point_cosine].
  - apply (kerf_raise [p; q] k true 0); [cbn; lia |].
    apply (reversal_vertex_cos [p; q] true 0 1); [left; reflexivity | lra |].
    cbn. destruct p as [px py], q as [qx qy].
    unfold vdiff, vscalmul. cbn [fst snd]. f_equal; ring.
Qed.

(** X20.  The displacement of every vertex is proportional to [k].  When
    [kerf] returns for some [k], it returns the input itself for offset 0,
    and for offset [a * k] every displacement is [a] times the one for
    [k]. *)
Theorem kerf_linear_in_k (points : list Point) (k : R) (closed : bool)
        (out : list Point) :
  kerf points k closed = Ok out ->
  kerf points 0 closed = Ok points /\
  forall a : R,
    exists out' : list Point,
      kerf points (a * k) closed = Ok out' /\
      length out' = length points /\
      forall i, (i < length points)%nat ->
        vdiff (point_at points i) (nth i out' (0, 0)) =
        vscalmul (vdiff (point_at points i) (nth i out (0, 0))) a.
Proof.
  intros Hout. destruct (kerf_ok_inv points k closed out Hout) as [Hall ->].
  split.
  - rewrite (kerf_ok points 0 closed Hall). f_equal.
    transitivity (map (point_at points) (seq 0 (length points)));
      [| apply map_point_at_seq].
    unfold kerf_spec. apply map_ext. intros i. unfold kerf_spec_point, vadd, vscalmul.
    destruct (point_at points i) as [px py]. cbn [fst snd].
    f_equal; unfold Rdiv; ring.
  - intros a. exists (kerf_spec points (a * k) closed).
    split; [apply kerf_ok, Hall |]. split; [apply kerf_spec_length |].
    intros i Hi. rewrite !kerf_spec_nth by exact Hi.
    unfold kerf_spec_point, vdiff, vadd, vscalmul. cbn [fst snd].
    f_equal; unfold Rdiv; ring.
Qed.

Lemma kerf_linear_in_k_witness :
  kerf unit_square (1 / 10) true =
    Ok [(- (1 / 10), - (1 / 10)); (1 + 1 / 10, - (1 / 10));
        (1 + 1 / 10, 1 + 1 / 10); (- (1 / 10), 1 + 1 / 10)] /\
  kerf unit_square 0 true = Ok unit_square.
Proof.
  split; [apply unit_square_offset_any |].
  exact (proj1 (kerf_linear_in_k unit_square (1 / 10) true _
                  (unit_square_offset_any (1 / 10)))).
Defined.

(** The two orthogonals at a vertex have the same length when no edge of
    the path is degenerate. *)
Lemma spec_normals_same_length (points : list Point) (closed : bool) (i : nat) :
  edges_nondegenerate points closed -> (i < length points)%nat ->
  vlength (spec_v1 points closed i) = vlength (spec_v2 points closed i).
Proof.
  intros Hedges Hi. unfold spec_v2.
  destruct (negb closed && (i =? length points - 1)%nat) eqn:Hlast;
    [reflexivity |].
  unfold spec_v1.
  destruct (negb closed && (i =? 0)%nat) eqn:Hfirst; [reflexivity |].
  assert (Hout : vlength (outgoing_normal points i) = 1).
  { unfold outgoing_normal. apply edge_normal_unit. apply Hedges; [exact Hi |].
    destruct closed; [left; reflexivity | right].
    cbn [negb andb] in Hlast. apply Nat.eqb_neq in Hlast. lia. }
  assert (Hin : vlength (incoming_normal points i) = 1).
  { unfold incoming_normal. apply edge_normal_unit.
    assert (Hp : (prev_index (length points) i < length points)%nat)
      by (apply prev_index_lt; lia).
    assert (He : point_at points (prev_index (length points) i) <>
                 point_at points
                   (next_index (length points) (prev_index (length points) i))).
    { apply Hedges; [exact Hp |].
      destruct closed; [left; reflexivity | right].
      cbn [negb andb] in Hfirst. apply Nat.eqb_neq in Hfirst.
      destruct i as [| i']; [contradiction |].
      rewrite prev_index_succ by exact Hi. lia. }
    rewrite next_prev_index in He by exact Hi. exact He. }
  rewrite Hin, Hout. reflexivity.
Qed.

(** The cosine is the same seen from either orthogonal when the two have
    the same length. *)
Lemma cosine_symmetric (a b : Vector) :
  vlength a = vlength b ->
  dotproduct a (normalize_val (vadd a b)) = dotproduct b (normalize_val (vadd a b)).
Proof.
  intros Hlen.
  pose proof (vlength_sqr a) as Ha. pose proof (vlength_sqr b) as Hb.
  rewrite Hlen, Hb in Ha. unfold sq in Ha.
  unfold normalize_val.
  destruct (Req_dec_T (vlength (vadd a b)) 0) as [Hz | Hnz].
  - unfold dotproduct. cbn [fst snd]. ring.
  - destruct a as [ax ay], b as [bx by_]. unfold dotproduct, vadd in *.
    cbn [fst snd] in *. field_simplify_eq; [| exact Hnz]. lra.
Qed.

(** When [kerf] returns on a path without degenerate edges, every returned
    vertex lies at signed distance [- k] from the line of each of its two
    edges, measured along the orthogonal [(-y, x)] of the edge. *)
Lemma perpendicular_distance_of_result (points : list Point) (k : R) (closed : bool)
        (out : list Point) :
  edges_nondegenerate points closed ->
  kerf points k closed = Ok out ->
  forall i, (i < length points)%nat ->
    let disp := vdiff (point_at points i) (nth i out (0, 0)) in
    dotproduct disp (spec_v1 points closed i) = - k /\
    dotproduct disp (spec_v2 points closed i) = - k.
Proof.
  intros Hedges Hout i Hi. cbn zeta.
  destruct (kerf_ok_inv points k closed out Hout) as [Hall ->].
  rewrite kerf_spec_nth by exact Hi.
  pose proof (Hall i Hi) as Hc.
  pose proof (cosine_symmetric _ _ (spec_normals_same_length points closed i Hedges Hi))
    as Hsym.
  unfold kerf_spec_point. unfold cosHalfAngle, bisector in *.
  set (a := spec_v1 points closed i) in *.
  set (b := spec_v2 points closed i) in *.
  set (d := normalize_val (vadd a b)) in *.
  assert (Hdisp : forall u : Vector,
            dotproduct (vdiff (point_at points i)
                          (vadd (point_at points i)
                                (vscalmul d (- k / dotproduct a d)))) u =
            - k / dotproduct a d * dotproduct u d).
  { intros u. unfold dotproduct, vdiff, vadd, vscalmul. cbn [fst snd].
    unfold Rdiv. ring. }
  split.
  - rewrite Hdisp. field. exact Hc.
  - rewrite Hdisp, <- Hsym. field. exact Hc.
Qed.

(** ** [kerf] under a change of coordinates *)

Section Similarity.

Variables (a : R) (t : Vector).
Hypothesis Ha : 0 < a.

Let f (p : Point) : Point := vadd (vscalmul p a) t.

Variables (points : list Point) (closed : bool).

Lemma similar_point_at (i : nat) :
  (i < length points)%nat ->
  point_at (map f points) i = f (point_at points i).
Proof.
  intros Hi. unfold point_at.
  rewrite (nth_indep _ (0, 0) (f (0, 0))) by (rewrite length_map; exact Hi).
  apply map_nth.
Qed.

Lemma similar_edge_normal (p q : Point) :
  edge_normal (f p) (f q) = edge_normal p q.
Proof.
  unfold edge_normal. f_equal.
  replace (vdiff (f p) (f q)) with (vscalmul (vdiff p q) a).
  - apply normalize_val_scale, Ha.
  - destruct p as [px py], q as [qx qy], t as [tx ty].
    unfold f, vdiff, vadd, vscalmul. cbn [fst snd]. f_equal; ring.
Qed.

Lemma similar_normals (i : nat) :
  (i < length points)%nat ->
  spec_v1 (map f points) closed i = spec_v1 points closed i /\
  spec_v2 (map f points) closed i = spec_v2 points closed i.
Proof.
  intros Hi.
  assert (Hin : incoming_normal (map f points) i = incoming_normal points i).
  { unfold incoming_normal. rewrite length_map.
    rewrite !similar_point_at by (exact Hi || (apply prev_index_lt; lia)).
    apply similar_edge_normal. }
  assert (Hout : outgoing_normal (map f points) i = outgoing_normal points i).
  { unfold outgoing_normal. rewrite length_map.
    rewrite !similar_point_at by (exact Hi || (apply next_index_lt; lia)).
    apply similar_edge_normal. }
  assert (H1 : spec_v1 (map f points) closed i = spec_v1 points closed i).
  { unfold spec_v1. rewrite Hin, Hout. reflexivity. }
  split; [exact H1 |].
  unfold spec_v2. rewrite length_map, H1, Hout. reflexivity.
Qed.

Lemma similar_vertex (k : R) (i : nat) :
  (i < length points)%nat ->
  cosHalfAngle (map f points) closed i = cosHalfAngle points closed i /\
  kerf_spec_point (map f points) (a * k) closed i =
    f (kerf_spec_point points k closed i).
Proof.
  intros Hi. destruct (similar_normals i Hi) as [H1 H2].
  assert (Hc : cosHalfAngle (map f points) closed i = cosHalfAngle points closed i).
  { unfold cosHalfAngle, bisector. rewrite H1, H2. reflexivity. }
  split; [exact Hc |].
  unfold kerf_spec_point. rewrite Hc, similar_point_at by exact Hi.
  unfold bisector. rewrite H1, H2.
  unfold f, vadd, vscalmul. cbn [fst snd]. f_equal; unfold Rdiv; ring.
Qed.

End Similarity.

(** With exact arithmetic [kerf] commutes with translations and positive
    scalings of the plane. *)
Lemma similar_path_offset (points : list Point) (k : R) (closed : bool)
        (a : R) (t : Vector) :
  0 < a ->
  kerf (map (fun p => vadd (vscalmul p a) t) points) (a * k) closed =
  (out <- kerf points k closed ;;
   Ok (map (fun p => vadd (vscalmul p a) t) out)).
Proof.
  intros Ha.
  destruct (zero_cosine_dec points closed (length points)) as [Hall | [j [Hj Hz]]].
  - rewrite (kerf_ok points k closed Hall). cbn [bind].
    rewrite kerf_ok.
    + f_equal. unfold kerf_spec. rewrite length_map, map_map.
      apply map_ext_in. intros i Hi. apply in_seq in Hi.
      assert (Hi' : (i < length points)%nat) by lia.
      destruct (similar_vertex a t Ha points closed k i Hi') as [_ Hp].
      cbv beta zeta in Hp. exact Hp.
    + intros i Hi. rewrite length_map in Hi.
      destruct (similar_vertex a t Ha points closed k i Hi) as [Hc _].
      intros Hz. apply (Hall i Hi).
      transitivity (cosHalfAngle
                      (map (fun p => vadd (vscalmul p a) t) points) closed i);
        [symmetry; exact Hc | exact Hz].
  - rewrite (kerf_raise points k closed j Hj Hz). cbn [bind].
    apply (kerf_raise _ _ _ j); [rewrite length_map; exact Hj |].
    destruct (similar_vertex a t Ha points closed k j Hj) as [Hc _].
    transitivity (cosHalfAngle points closed j); [exact Hc | exact Hz].
Qed.

(** X23.  Offsetting a regular polygon, for any [k]: every vertex moves
    along its radius, the circumradius becomes
    [rho + sigma * k / cos (pi/n)].  On a counter-clockwise polygon a
    positive [k] therefore enlarges it, on a clockwise one it shrinks
    it. *)
Theorem kerf_regular_polygon_radius
        (n : nat) (c : Point) (rho theta sigma k : R) :
  (3 <= n)%nat -> 0 < rho -> sigma = 1 \/ sigma = -1 ->
  kerf (regular_polygon n c rho theta sigma) k true =
    Ok (regular_polygon n c (rho + sigma * k / cos (PI / INR n)) theta sigma) /\
  (0 < k -> sigma = 1 -> rho < rho + sigma * k / cos (PI / INR n)) /\
  (0 < k -> sigma = -1 -> rho + sigma * k / cos (PI / INR n) < rho).
Proof.
  intros Hn Hrho Hsigma.
  pose proof (cos_half_pos n Hn) as Hch. cbn zeta in Hch.
  split; [apply (kerf_regular_polygon n c theta sigma Hn Hsigma rho k Hrho) |].
  assert (Hpos : forall x, 0 < x -> 0 < x / cos (PI / INR n))
    by (intros x Hx; apply Rdiv_lt_0_compat; assumption).
  split; intros Hk ->; pose proof (Hpos k Hk) as Hq.
  - replace (1 * k / cos (PI / INR n)) with (k / cos (PI / INR n))
      by (unfold Rdiv; ring). lra.
  - replace (-1 * k / cos (PI / INR n)) with (- (k / cos (PI / INR n)))
      by (unfold Rdiv; ring). lra.
Qed.

Lemma kerf_regular_polygon_radius_witness :
  (3 <= 3)%nat /\ 0 < 1 /\ (1 = 1 \/ 1 = -1) /\
  kerf (regular_polygon 3 (0, 0) 1 0 1) 5 true =
    Ok (regular_polygon 3 (0, 0) (1 + 1 * 5 / cos (PI / INR 3)) 0 1).
Proof.
  split; [lia |]. split; [lra |]. split; [left; reflexivity |].
  apply (kerf_regular_polygon_radius 3 (0, 0) 1 0 1 5);
    [lia | lra | left; reflexivity].
Defined.

(** ** [kerf] on the reversed path *)

Lemma prev_next_index (n i : nat) :
  (i < n)%nat -> prev_index n (next_index n i) = i.
Proof.
  intros Hi. unfold next_index, prev_index.
  destruct (Nat.eq_dec (i + 1) n) as [Hlast | Hnl].
  - rewrite Hlast, Nat.Div0.mod_same.
    replace (0 + n - 1)%nat with i by lia. apply Nat.mod_small, Hi.
  - rewrite (Nat.mod_small (i + 1)) by lia.
    replace (i + 1 + n - 1)%nat with (i + 1 * n)%nat by lia.
    rewrite Nat.Div0.mod_add. apply Nat.mod_small, Hi.
Qed.

Lemma mirror_prev_index (n i : nat) :
  (i < n)%nat -> (n - 1 - prev_index n i)%nat = next_index n (n - 1 - i).
Proof.
  intros Hi. unfold prev_index, next_index. destruct i as [| i].
  - replace (0 + n - 1)%nat with (n - 1)%nat by lia.
    rewrite (Nat.mod_small (n - 1)) by lia.
    replace (n - 1 - 0 + 1)%nat with n by lia.
    rewrite Nat.Div0.mod_same. lia.
  - replace (S i + n - 1)%nat with (i + 1 * n)%nat by lia.
    rewrite Nat.Div0.mod_add, (Nat.mod_small i) by lia.
    rewrite Nat.mod_small by lia. lia.
Qed.

Lemma mirror_next_index (n i : nat) :
  (i < n)%nat -> (n - 1 - next_index n i)%nat = prev_index n (n - 1 - i).
Proof.
  intros Hi. unfold prev_index, next_index.
  destruct (Nat.eq_dec (i + 1) n) as [Hlast | Hnl].
  - rewrite Hlast, Nat.Div0.mod_same.
    replace (n - 1 - i)%nat with 0%nat by lia.
    replace (0 + n - 1)%nat with (n - 1)%nat by lia.
    rewrite Nat.mod_small by lia. lia.
  - rewrite (Nat.mod_small (i + 1)) by lia.
    replace (n - 1 - i + n - 1)%nat with (n - 1 - (i + 1) + 1 * n)%nat by lia.
    rewrite Nat.Div0.mod_add, Nat.mod_small by lia. reflexivity.
Qed.

Lemma point_at_rev (points : list Point) (i : nat) :
  (i < length points)%nat ->
  point_at (rev points) i = point_at points (length points - 1 - i).
Proof.
  intros Hi. unfold point_at. rewrite rev_nth by exact Hi.
  f_equal. lia.
Qed.

Lemma edge_normal_swap (p q : Point) : edge_normal q p = neg (edge_normal p q).
Proof.
  unfold edge_normal, neg.
  replace (vdiff q p) with (vscalmul (vdiff p q) (- (1)))
    by (destruct p, q; unfold vdiff, vscalmul; cbn [fst snd]; f_equal; ring).
  rewrite normalize_val_scale_neg by lra.
  unfold vorthogonal, vscalmul. cbn [fst snd]. f_equal; ring.
Qed.

Lemma normalize_val_neg (v : Vector) : normalize_val (neg v) = neg (normalize_val v).
Proof.
  unfold neg. replace (-1) with (- (1)) by ring.
  apply normalize_val_scale_neg. lra.
Qed.

Section Reverse.

Variables (points : list Point) (closed : bool).

Let n := length points.

Lemma rev_incoming (i : nat) :
  (i < n)%nat ->
  incoming_normal (rev points) i = neg (outgoing_normal points (n - 1 - i)).
Proof.
  intros Hi. unfold incoming_normal, outgoing_normal.
  rewrite length_rev. fold n.
  rewrite !point_at_rev by (fold n; exact Hi || (apply prev_index_lt; lia)).
  fold n. rewrite mirror_prev_index by exact Hi.
  apply edge_normal_swap.
Qed.

Lemma rev_outgoing (i : nat) :
  (i < n)%nat ->
  outgoing_normal (rev points) i = neg (incoming_normal points (n - 1 - i)).
Proof.
  intros Hi. unfold incoming_normal, outgoing_normal.
  rewrite length_rev. fold n.
  rewrite !point_at_rev by (fold n; exact Hi || (apply next_index_lt; lia)).
  fold n. rewrite mirror_next_index by exact Hi.
  apply edge_normal_swap.
Qed.

Lemma single_point_normals :
  n = 1%nat -> incoming_normal points 0 = outgoing_normal points 0.
Proof.
  intros H1. unfold incoming_normal, outgoing_normal. fold n. rewrite H1.
  reflexivity.
Qed.

Lemma rev_spec_v1 (i : nat) :
  (i < n)%nat ->
  spec_v1 (rev points) closed i = neg (spec_v2 points closed (n - 1 - i)).
Proof.
  intros Hi. unfold spec_v2, spec_v1. fold n.
  rewrite rev_incoming, rev_outgoing by exact Hi.
  destruct closed; cbn [negb andb]; [reflexivity |].
  destruct (Nat.eqb_spec i 0) as [Hz | Hnz];
    destruct (Nat.eqb_spec (n - 1 - i) (n - 1)) as [Hl | Hnl]; try lia.
  - destruct (Nat.eqb_spec (n - 1 - i) 0) as [Hz' | Hnz']; [| reflexivity].
    replace (n - 1 - i)%nat with 0%nat by lia.
    rewrite single_point_normals by lia. reflexivity.
  - reflexivity.
Qed.

Lemma rev_spec_v2 (i : nat) :
  (i < n)%nat ->
  spec_v2 (rev points) closed i = neg (spec_v1 points closed (n - 1 - i)).
Proof.
  intros Hi. unfold spec_v2 at 1. rewrite length_rev. fold n.
  rewrite rev_spec_v1, rev_outgoing by exact Hi.
  unfold spec_v2, spec_v1. fold n.
  destruct closed; cbn [negb andb]; [reflexivity |].
  destruct (Nat.eqb_spec i (n - 1)) as [Hl | Hnl];
    destruct (Nat.eqb_spec (n - 1 - i) 0) as [Hz | Hnz]; try lia.
  - destruct (Nat.eqb_spec (n - 1 - i) (n - 1)); reflexivity.
  - reflexivity.
Qed.

Lemma rev_bisector (i : nat) :
  (i < n)%nat ->
  bisector (rev points) closed i = neg (bisector points closed (n - 1 - i)).
Proof.
  intros Hi. unfold bisector. rewrite rev_spec_v1, rev_spec_v2 by exact Hi.
  rewrite <- normalize_val_neg. f_equal.
  unfold neg, vadd, vscalmul. cbn [fst snd]. f_equal; ring.
Qed.

Lemma rev_vertex (k : R) (i : nat) :
  edges_nondegenerate points closed -> (i < n)%nat ->
  cosHalfAngle (rev points) closed i = cosHalfAngle points closed (n - 1 - i) /\
  kerf_spec_point (rev points) k closed i =
    kerf_spec_point points (- k) closed (n - 1 - i).
Proof.
  intros Hedges Hi.
  assert (Hj : (n - 1 - i < n)%nat) by lia.
  assert (Hc : cosHalfAngle (rev points) closed i =
               cosHalfAngle points closed (n - 1 - i)).
  { unfold cosHalfAngle. rewrite rev_bisector, rev_spec_v1 by exact Hi.
    unfold bisector.
    rewrite (cosine_symmetric _ _
               (spec_normals_same_length points closed (n - 1 - i) Hedges Hj)).
    unfold neg, dotproduct, vscalmul. cbn [fst snd]. ring. }
  split; [exact Hc |].
  unfold kerf_spec_point. rewrite Hc, rev_bisector by exact Hi.
  rewrite point_at_rev by exact Hi. fold n.
  unfold neg, vadd, vscalmul. cbn [fst snd]. f_equal; unfold Rdiv; ring.
Qed.

End Reverse.

Lemma point_eq_dec (p q : Point) : {p = q} + {p <> q}.
Proof.
  destruct p as [px py], q as [qx qy].
  destruct (Req_dec_T px qx) as [Hx | Hx];
    [destruct (Req_dec_T py qy) as [Hy | Hy] |].
  - left. subst. reflexivity.
  - right. intros H. inversion H. contradiction.
  - right. intros H. inversion H. contradiction.
Qed.

(** Either no edge among the first [m] is degenerate or one is. *)
Lemma degenerate_edge_dec (points : list Point) (closed : bool) (m : nat) :
  (forall i, (i < m)%nat ->
     closed = true \/ (i + 1 < length points)%nat ->
     point_at points i <> point_at points (next_index (length points) i)) \/
  (exists i, (i < m)%nat /\
     (closed = true \/ (i + 1 < length points)%nat) /\
     point_at points i = point_at points (next_index (length points) i)).
Proof.
  induction m as [| m IH].
  - left. intros i Hi. lia.
  - destruct IH as [Hall | [i [Hi Hdeg]]];
      [| right; exists i; split; [lia | exact Hdeg]].
    destruct (point_eq_dec (point_at points m)
                (point_at points (next_index (length points) m))) as [Heq | Hne].
    + destruct closed eqn:Hclosed.
      * right. exists m. split; [lia |]. split; [left; reflexivity | exact Heq].
      * destruct (lt_dec (m + 1) (length points)) as [Hlt | Hge].
        -- right. exists m. split; [lia |]. split; [right; exact Hlt | exact Heq].
        -- left. intros i Hi [Hc | Hs]; [discriminate |].
           destruct (Nat.eq_dec i m) as [-> | Hnm]; [lia |].
           apply Hall; [lia | right; exact Hs].
    + left. intros i Hi Hside.
      destruct (Nat.eq_dec i m) as [-> | Hnm]; [exact Hne |].
      apply Hall; [lia | exact Hside].
Qed.

(** A degenerate edge makes [kerf] raise at the vertex the edge arrives
    at. *)
Lemma degenerate_edge_raises (points : list Point) (k : R) (closed : bool) (i : nat) :
  (i < length points)%nat ->
  closed = true \/ (i + 1 < length points)%nat ->
  point_at points i = point_at points (next_index (length points) i) ->
  kerf points k closed = Raise ZeroDivisionError.
Proof.
  intros Hi Hside Hdeg.
  apply (kerf_raise points k closed (next_index (length points) i)).
  - apply next_index_lt. lia.
  - apply duplicate_vertex_cos.
    + destruct Hside as [Hc | Hs]; [left; exact Hc | right].
      unfold next_index. rewrite Nat.mod_small by lia. lia.
    + rewrite prev_next_index by exact Hi. exact Hdeg.
Qed.

(** With exact arithmetic, [kerf] of the reversed path with [k] is the
    reversal of [kerf] of the path with [- k]. *)
Lemma reversed_path_offset (points : list Point) (k : R) (closed : bool) :
  kerf (rev points) k closed =
  (out <- kerf points (- k) closed ;; Ok (rev out)).
Proof.
  set (n := length points).
  destruct (degenerate_edge_dec points closed n) as [Hedges | [i [Hi [Hside Hdeg]]]].
  - fold (edges_nondegenerate points closed) in Hedges.
    destruct (zero_cosine_dec points closed n) as [Hall | [j [Hj Hz]]].
    + rewrite (kerf_ok points (- k) closed Hall). cbn [bind].
      rewrite kerf_ok.
      * f_equal. apply (nth_ext _ _ (0, 0) (0, 0)).
        -- rewrite length_rev, !kerf_spec_length, length_rev. reflexivity.
        -- intros i Hi. rewrite kerf_spec_length, length_rev in Hi.
           rewrite kerf_spec_nth by (rewrite length_rev; exact Hi).
           rewrite rev_nth by (rewrite kerf_spec_length; exact Hi).
           rewrite kerf_spec_length.
           rewrite kerf_spec_nth by lia.
           destruct (rev_vertex points closed k i Hedges Hi) as [_ Hp].
           cbv zeta in Hp. rewrite Hp. f_equal. lia.
      * intros i Hi. rewrite length_rev in Hi.
        destruct (rev_vertex points closed k i Hedges Hi) as [Hc _].
        cbv zeta in Hc. rewrite Hc. apply Hall. fold n in Hi. unfold n. lia.
    + rewrite (kerf_raise points (- k) closed j Hj Hz). cbn [bind].
      apply (kerf_raise (rev points) k closed (n - 1 - j)).
      * rewrite length_rev. fold n. lia.
      * assert (Hi : (n - 1 - j < n)%nat) by lia.
        destruct (rev_vertex points closed k (n - 1 - j) Hedges Hi) as [Hc _].
        cbv zeta in Hc. rewrite Hc. fold n.
        replace (n - 1 - (n - 1 - j))%nat with j by lia. exact Hz.
  - rewrite (degenerate_edge_raises points (- k) closed i Hi Hside Hdeg).
    cbn [bind].
    assert (Hnx : (next_index n i < n)%nat) by (apply next_index_lt; lia).
    apply (degenerate_edge_raises (rev points) k closed (n - 1 - next_index n i)).
    + rewrite length_rev. fold n. lia.
    + rewrite length_rev. fold n.
      destruct Hside as [Hc | Hs]; [left; exact Hc | right].
      fold n in Hs. unfold next_index. rewrite Nat.mod_small by lia. lia.
    + rewrite length_rev. fold n.
      rewrite !point_at_rev by (fold n; lia || (apply next_index_lt; lia)).
      fold n.
      rewrite (mirror_next_index n (n - 1 - next_index n i)) by lia.
      replace (n - 1 - (n - 1 - next_index n i))%nat with (next_index n i) by lia.
      rewrite prev_next_index by exact Hi.
      symmetry. exact Hdeg.
Qed.

(** ** The size and the direction of the displacement *)

Lemma edge_normal_length_cases (p q : Point) :
  vlength (edge_normal p q) = 1 \/ edge_normal p q = (-0, 0).
Proof.
  destruct (point_eq_dec p q) as [-> | Hne].
  - right. apply edge_normal_degenerate.
  - left. apply edge_normal_unit, Hne.
Qed.

Lemma spec_normals_length_cases (points : list Point) (closed : bool) (i : nat) :
  (vlength (spec_v1 points closed i) = 1 \/ spec_v1 points closed i = (-0, 0)) /\
  (vlength (spec_v2 points closed i) = 1 \/ spec_v2 points closed i = (-0, 0)).
Proof.
  assert (H1 : vlength (spec_v1 points closed i) = 1 \/
               spec_v1 points closed i = (-0, 0)).
  { unfold spec_v1, incoming_normal, outgoing_normal.
    destruct (negb closed && (i =? 0)%nat); apply edge_normal_length_cases. }
  split; [exact H1 |]. unfold spec_v2.
  destruct (negb closed && (i =? length points - 1)%nat); [exact H1 |].
  unfold outgoing_normal. apply edge_normal_length_cases.
Qed.

Lemma cauchy_schwarz (a b : Vector) :
  dotproduct a b * dotproduct a b <=
  (vlength a * vlength a) * (vlength b * vlength b).
Proof.
  rewrite !vlength_sqr. destruct a as [ax ay], b as [bx by_].
  unfold dotproduct, sq. cbn [fst snd].
  pose proof (Rle_0_sqr (ax * by_ - ay * bx)) as H. unfold Rsqr in H. nra.
Qed.

(** What a vertex with a nonzero cosine looks like: [v1] is a unit vector,
    the bisector is a unit vector, and the cosine lies in (0, 1]. *)
Lemma nonzero_cosine_shape (points : list Point) (closed : bool) (i : nat) :
  cosHalfAngle points closed i <> 0 ->
  vlength (spec_v1 points closed i) = 1 /\
  vlength (bisector points closed i) = 1 /\
  0 < cosHalfAngle points closed i <= 1.
Proof.
  intros Hc. unfold cosHalfAngle, bisector in *.
  destruct (spec_normals_length_cases points closed i) as [Ha Hb].
  set (a := spec_v1 points closed i) in *.
  set (b := spec_v2 points closed i) in *.
  assert (Ha1 : vlength a = 1).
  { destruct Ha as [Ha | Ha]; [exact Ha |]. exfalso. apply Hc.
    rewrite Ha. unfold dotproduct. cbn [fst snd]. ring. }
  assert (Hs : vlength (vadd a b) <> 0).
  { intros Hz. apply Hc. unfold normalize_val.
    destruct (Req_dec_T (vlength (vadd a b)) 0) as [_ | Hn]; [| contradiction].
    unfold dotproduct. cbn [fst snd]. ring. }
  pose proof (normalize_val_unit (vadd a b) Hs) as Hd.
  split; [exact Ha1 |]. split; [exact Hd |].
  pose proof (cauchy_schwarz a (normalize_val (vadd a b))) as Hcs.
  rewrite Ha1, Hd in Hcs.
  assert (Hge : 0 <= dotproduct a (normalize_val (vadd a b))).
  { pose proof (vlength_nonneg (vadd a b)) as Hp.
    pose proof (vlength_sqr a) as Hsa. rewrite Ha1 in Hsa.
    pose proof (cauchy_schwarz a b) as Hab. rewrite Ha1 in Hab.
    assert (Hlb : vlength b * vlength b <= 1).
    { destruct Hb as [Hb | Hb]; [rewrite Hb; lra |].
      rewrite Hb. rewrite vlength_sqr. unfold sq. cbn [fst snd]. lra. }
    unfold normalize_val.
    destruct (Req_dec_T (vlength (vadd a b)) 0) as [Hz | _]; [contradiction |].
    destruct a as [ax ay], b as [bx by_].
    unfold dotproduct, vadd, sq in *. cbn [fst snd] in *.
    replace (ax * ((ax + bx) / vlength (ax + bx, ay + by_)) +
             ay * ((ay + by_) / vlength (ax + bx, ay + by_)))
      with ((1 + (ax * bx + ay * by_)) / vlength (ax + bx, ay + by_))
      by (unfold Rdiv; replace 1 with (ax * ax + ay * ay) by lra; ring).
    apply Rmult_le_pos; [nra | left; apply Rinv_0_lt_compat; lra]. }
  nra.
Qed.

(** When [kerf] returns, every vertex has a cosine in (0, 1] and moves by
    exactly [|k| / cosHalfAngle]. *)
Lemma displacement_length_of_result (points : list Point) (k : R) (closed : bool)
        (out : list Point) :
  kerf points k closed = Ok out ->
  forall i, (i < length points)%nat ->
    let disp := vdiff (point_at points i) (nth i out (0, 0)) in
    0 < cosHalfAngle points closed i <= 1 /\
    vlength disp = Rabs k / cosHalfAngle points closed i /\
    Rabs k <= vlength disp.
Proof.
  intros Hout i Hi. cbn zeta.
  destruct (kerf_ok_inv points k closed out Hout) as [Hall ->].
  destruct (nonzero_cosine_shape points closed i (Hall i Hi)) as [_ [Hd [Hc0 Hc1]]].
  rewrite kerf_spec_nth by exact Hi. unfold kerf_spec_point.
  set (c := cosHalfAngle points closed i) in *.
  set (d := bisector points closed i) in *.
  assert (Hlen : vlength (vdiff (point_at points i)
                   (vadd (point_at points i) (vscalmul d (- k / c)))) = Rabs k / c).
  { replace (vdiff (point_at points i)
               (vadd (point_at points i) (vscalmul d (- k / c))))
      with (vscalmul d (- k / c))
      by (unfold vdiff, vadd, vscalmul; cbn [fst snd]; f_equal; ring).
    rewrite vlength_vscalmul, Hd. unfold Rdiv.
    rewrite Rabs_mult, Rabs_Ropp, (Rabs_pos_eq (/ c))
      by (left; apply Rinv_0_lt_compat; exact Hc0).
    ring. }
  split; [split; assumption |]. split; [exact Hlen |].
  rewrite Hlen. pose proof (Rabs_pos k) as Hk.
  apply (Rmult_le_reg_r c); [exact Hc0 |].
  unfold Rdiv. rewrite Rmult_assoc, Rinv_l by lra. nra.
Qed.

(** ** Open and closed paths *)

(** X26.  The [closed] flag only matters at the two ends: when [kerf]
    returns for the closed and for the open reading of a path, the two
    results agree at every vertex but the first and the last. *)
Theorem kerf_closed_flag_interior (points : list Point) (k : R)
        (out_closed out_open : list Point) :
  kerf points k true = Ok out_closed ->
  kerf points k false = Ok out_open ->
  forall i, (0 < i)%nat -> (i + 1 < length points)%nat ->
    nth i out_closed (0, 0) = nth i out_open (0, 0).
Proof.
  intros Hc Ho i Hi0 Hi1.
  destruct (kerf_ok_inv points k true out_closed Hc) as [_ ->].
  destruct (kerf_ok_inv points k false out_open Ho) as [_ ->].
  rewrite !kerf_spec_nth by lia.
  assert (H1 : spec_v1 points false i = spec_v1 points true i).
  { unfold spec_v1. destruct (Nat.eqb_spec i 0); [lia | reflexivity]. }
  assert (H2 : spec_v2 points false i = spec_v2 points true i).
  { unfold spec_v2. cbn [negb andb].
    destruct (Nat.eqb_spec i (length points - 1)); [lia | reflexivity]. }
  unfold kerf_spec_point, cosHalfAngle, bisector. rewrite H1, H2. reflexivity.
Qed.

Lemma unit_square_open (k : R) :
  kerf unit_square k false =
  Ok [(0, - k); (1 + k, - k); (1 + k, 1 + k); (0, 1 + k)].
Proof.
  pose proof sqrt2_sqr as Hs. pose proof sqrt2_pos as Hp.
  assert (E01 : edge_normal (0, 0) (1, 0) = (0, 1))
    by (apply (edge_normal_eq _ _ _ 1); unfold sq; simpl; lra).
  assert (E12 : edge_normal (1, 0) (1, 1) = (-1, 0))
    by (apply (edge_normal_eq _ _ _ 1); unfold sq; simpl; lra).
  assert (E23 : edge_normal (1, 1) (0, 1) = (0, -1))
    by (apply (edge_normal_eq _ _ _ 1); unfold sq; simpl; lra).
  assert (V0 : kerf_spec_point unit_square k false 0 = (0, - k) /\
               cosHalfAngle unit_square false 0 = 1).
  { destruct (vertex_eval unit_square k false 0 (0, 1) (0, 1) (0, 1) 2 1)
      as [_ [Hc Hq]]; try (unfold sq, dotproduct; simpl; lra).
    - unfold spec_v1, outgoing_normal. cbn. exact E01.
    - unfold spec_v2, spec_v1, outgoing_normal. cbn. exact E01.
    - split; [| exact Hc]. rewrite Hq.
      unfold vadd, vscalmul. cbn. f_equal; field. }
  assert (V1 : kerf_spec_point unit_square k false 1 = (1 + k, - k) /\
               cosHalfAngle unit_square false 1 = / sqrt 2).
  { destruct (vertex_eval unit_square k false 1 (0, 1) (-1, 0)
                (- / sqrt 2, / sqrt 2) (sqrt 2) (/ sqrt 2))
      as [_ [Hc Hq]];
      try (unfold sq, dotproduct; cbn [fst snd]; field_simplify; nra).
    - unfold spec_v1, incoming_normal. cbn. exact E01.
    - unfold spec_v2, spec_v1, outgoing_normal. cbn. exact E12.
    - split; [| exact Hc]. rewrite Hq.
      unfold vadd, vscalmul. cbn. f_equal; field; lra. }
  assert (V2 : kerf_spec_point unit_square k false 2 = (1 + k, 1 + k) /\
               cosHalfAngle unit_square false 2 = / sqrt 2).
  { destruct (vertex_eval unit_square k false 2 (-1, 0) (0, -1)
                (- / sqrt 2, - / sqrt 2) (sqrt 2) (/ sqrt 2))
      as [_ [Hc Hq]];
      try (unfold sq, dotproduct; cbn [fst snd]; field_simplify; nra).
    - unfold spec_v1, incoming_normal. cbn. exact E12.
    - unfold spec_v2, spec_v1, outgoing_normal. cbn. exact E23.
    - split; [| exact Hc]. rewrite Hq.
      unfold vadd, vscalmul. cbn. f_equal; field; lra. }
  assert (V3 : kerf_spec_point unit_square k false 3 = (0, 1 + k) /\
               cosHalfAngle unit_square false 3 = 1).
  { destruct (vertex_eval unit_square k false 3 (0, -1) (0, -1) (0, -1) 2 1)
      as [_ [Hc Hq]]; try (unfold sq, dotproduct; simpl; lra).
    - unfold spec_v1, incoming_normal. cbn. exact E23.
    - unfold spec_v2, spec_v1, incoming_normal. cbn. exact E23.
    - split; [| exact Hc]. rewrite Hq.
      unfold vadd, vscalmul. cbn. f_equal; field. }
  rewrite kerf_ok.
  - unfold kerf_spec. cbn [unit_square length seq map]. fold unit_square.
    destruct V0 as [-> _], V1 as [-> _], V2 as [-> _], V3 as [-> _]. reflexivity.
  - intros i Hi. cbn in Hi.
    destruct i as [| [| [| [| i]]]]; [| | | | lia].
    + destruct V0 as [_ ->]. lra.
    + destruct V1 as [_ ->]. apply Rinv_neq_0_compat. lra.
    + destruct V2 as [_ ->]. apply Rinv_neq_0_compat. lra.
    + destruct V3 as [_ ->]. lra.
Qed.

Lemma kerf_closed_flag_interior_witness :
  kerf unit_square (1 / 10) true =
    Ok [(- (1 / 10), - (1 / 10)); (1 + 1 / 10, - (1 / 10));
        (1 + 1 / 10, 1 + 1 / 10); (- (1 / 10), 1 + 1 / 10)] /\
  kerf unit_square (1 / 10) false =
    Ok [(0, - (1 / 10)); (1 + 1 / 10, - (1 / 10));
        (1 + 1 / 10, 1 + 1 / 10); (0, 1 + 1 / 10)] /\
  (0 < 1)%nat /\ (1 + 1 < length unit_square)%nat /\
  nth 1 [(- (1 / 10), - (1 / 10)); (1 + 1 / 10, - (1 / 10));
         (1 + 1 / 10, 1 + 1 / 10); (- (1 / 10), 1 + 1 / 10)] (0, 0) =
  nth 1 [(0, - (1 / 10)); (1 + 1 / 10, - (1 / 10));
         (1 + 1 / 10, 1 + 1 / 10); (0, 1 + 1 / 10)] (0, 0).
Proof.
  split; [apply unit_square_offset_any |].
  split; [apply unit_square_open |].
  split; [lia |]. split; [cbn; lia |].
  apply (kerf_closed_flag_interior unit_square (1 / 10) _ _
           (unit_square_offset_any (1 / 10)) (unit_square_open (1 / 10)) 1%nat);
    [lia | cbn; lia].
Defined.

(** A vertex whose two orthogonals are one and the same unit vector moves
    by [- k] times that vector. *)
Lemma equal_normals_vertex (points : list Point) (k : R) (closed : bool)
      (i : nat) (a : Vector) :
  spec_v1 points closed i = a -> spec_v2 points closed i = a -> vlength a = 1 ->
  kerf_spec_point points k closed i =
  vadd (point_at points i) (vscalmul a (- k)).
Proof.
  intros H1 H2 Hlen. pose proof (vlength_sqr a) as Hs. rewrite Hlen in Hs.
  unfold sq in Hs.
  destruct (vertex_eval points k closed i a a a 2 1 H1 H2) as [_ [_ Hq]];
    try (unfold sq, dotproduct; lra).
  rewrite Hq. unfold vadd, vscalmul. cbn [fst snd]. f_equal; field.
Qed.

(** X27.  The two ends of an open path move straight across the one edge
    they belong to, by exactly [k]: the first vertex by [- k] times the
    unit orthogonal of the first edge, the last by [- k] times the unit
    orthogonal of the last edge.  A path on which the open [kerf] returns
    has at least two points. *)
Theorem kerf_open_ends (points : list Point) (k : R) (out : list Point) :
  kerf points k false = Ok out ->
  (1 <= length points)%nat ->
  let last := (length points - 1)%nat in
  (2 <= length points)%nat /\
  vlength (outgoing_normal points 0) = 1 /\
  vlength (incoming_normal points last) = 1 /\
  nth 0 out (0, 0) =
    vadd (point_at points 0) (vscalmul (outgoing_normal points 0) (- k)) /\
  nth last out (0, 0) =
    vadd (point_at points last) (vscalmul (incoming_normal points last) (- k)).
Proof.
  intros Hout Hlen. cbn zeta.
  destruct (kerf_ok_inv points k false out Hout) as [Hall ->].
  assert (Hn2 : (2 <= length points)%nat).
  { destruct points as [| p [| q rest]]; cbn in *; try lia.
    exfalso. apply (Hall 0%nat); [lia | apply one_point_cosine]. }
  set (n := length points) in *.
  assert (F1 : spec_v1 points false 0 = outgoing_normal points 0) by reflexivity.
  assert (F2 : spec_v2 points false 0 = outgoing_normal points 0).
  { unfold spec_v2. fold n. rewrite F1.
    destruct (negb false && (0 =? n - 1)%nat); reflexivity. }
  assert (L1 : spec_v1 points false (n - 1) = incoming_normal points (n - 1)).
  { unfold spec_v1. cbn [negb andb].
    destruct (Nat.eqb_spec (n - 1) 0); [lia | reflexivity]. }
  assert (L2 : spec_v2 points false (n - 1) = incoming_normal points (n - 1)).
  { unfold spec_v2. fold n. rewrite L1. cbn [negb andb].
    rewrite Nat.eqb_refl. reflexivity. }
  destruct (nonzero_cosine_shape points false 0 (Hall 0%nat ltac:(lia)))
    as [HF _].
  destruct (nonzero_cosine_shape points false (n - 1) (Hall (n - 1)%nat ltac:(lia)))
    as [HL _].
  rewrite F1 in HF. rewrite L1 in HL.
  split; [exact Hn2 |]. split; [exact HF |]. split; [exact HL |].
  rewrite !kerf_spec_nth by (fold n; lia). split.
  - apply equal_normals_vertex; assumption.
  - apply equal_normals_vertex; assumption.
Qed.

Lemma kerf_open_ends_witness :
  kerf unit_square (1 / 10) false =
    Ok [(0, - (1 / 10)); (1 + 1 / 10, - (1 / 10));
        (1 + 1 / 10, 1 + 1 / 10); (0, 1 + 1 / 10)] /\
  (1 <= length unit_square)%nat /\
  nth 0 [(0, - (1 / 10)); (1 + 1 / 10, - (1 / 10));
         (1 + 1 / 10, 1 + 1 / 10); (0, 1 + 1 / 10)] (0, 0) =
    vadd (point_at unit_square 0)
         (vscalmul (outgoing_normal unit_square 0) (- (1 / 10))).
Proof.
  split; [apply unit_square_open |]. split; [cbn; lia |].
  assert (Hlen : (1 <= length unit_square)%nat) by (cbn; lia).
  exact (proj1 (proj2 (proj2 (proj2
           (kerf_open_ends unit_square (1 / 10) _
              (unit_square_open (1 / 10)) Hlen))))).
Defined.

(** X28.  A rotation by a quarter turn is [vorthogonal]. *)
Theorem rotm_quarter_turn (x y : R) :
  vtransl [x; y] (rotm (PI / 2)) =
  Ok [fst (vorthogonal (x, y)); snd (vorthogonal (x, y))].
Proof.
  unfold rotm, vorthogonal. cbn [fst snd]. py_eval.
  rewrite cos_PI2, sin_PI2. mat_eq.
Qed.

(** ** Paths [kerf] can offset *)

Lemma normalize_val_rescale (v : Vector) :
  vscalmul (normalize_val v) (vlength v) = v.
Proof.
  unfold normalize_val. destruct (Req_dec_T (vlength v) 0) as [Hz | Hnz].
  - rewrite Hz. apply vlength_zero_iff in Hz. subst v.
    unfold vscalmul. cbn [fst snd]. f_equal; ring.
  - destruct v as [x y]. unfold vscalmul. cbn [fst snd] in *.
    f_equal; field; exact Hnz.
Qed.

(** Two edges whose unit orthogonals cancel point in opposite
    directions. *)
Lemma opposite_directions (e1 e2 : Vector) :
  e1 <> (0, 0) -> e2 <> (0, 0) ->
  vadd (vorthogonal (normalize_val e1)) (vorthogonal (normalize_val e2)) = (0, 0) ->
  exists c : R, 0 < c /\ e2 = vscalmul e1 (- c).
Proof.
  intros H1 H2 Hz.
  pose proof (vlength_pos e1 H1) as L1. pose proof (vlength_pos e2 H2) as L2.
  pose proof (normalize_val_rescale e1) as R1.
  pose proof (normalize_val_rescale e2) as R2.
  destruct (normalize_val e1) as [n1x n1y], (normalize_val e2) as [n2x n2y].
  unfold vadd, vorthogonal in Hz. cbn [fst snd] in Hz. injection Hz as Hy Hx.
  set (l1 := vlength e1) in *. set (l2 := vlength e2) in *.
  destruct e1 as [e1x e1y], e2 as [e2x e2y].
  unfold vscalmul in R1, R2. cbn [fst snd] in R1, R2.
  injection R1 as R1x R1y. injection R2 as R2x R2y.
  exists (l2 / l1). split; [apply Rdiv_lt_0_compat; assumption |].
  unfold vscalmul. cbn [fst snd].
  rewrite <- R1x, <- R1y, <- R2x, <- R2y.
  replace n2x with (- n1x) by lra. replace n2y with (- n1y) by lra.
  f_equal; field; lra.
Qed.

Lemma unit_double_nonzero (a : Vector) : vlength a = 1 -> vadd a a <> (0, 0).
Proof.
  intros Ha Hz. destruct a as [x y]. unfold vadd in Hz. cbn [fst snd] in Hz.
  injection Hz as Hx Hy.
  assert (H0 : vlength (x, y) = 0).
  { apply vlength_zero_iff. f_equal; lra. }
  lra.
Qed.

(** Two unit vectors that do not cancel have a nonzero cosine with their
    bisector. *)
Lemma unit_sum_cosine (a b : Vector) :
  vlength a = 1 -> vlength b = 1 -> vadd a b <> (0, 0) ->
  dotproduct a (normalize_val (vadd a b)) <> 0.
Proof.
  intros Ha Hb Hs.
  pose proof (vlength_pos (vadd a b) Hs) as HL.
  pose proof (vlength_sqr (vadd a b)) as HL2.
  pose proof (vlength_sqr a) as Ha2. rewrite Ha in Ha2.
  pose proof (vlength_sqr b) as Hb2. rewrite Hb in Hb2.
  unfold normalize_val.
  destruct (Req_dec_T (vlength (vadd a b)) 0) as [Hz | _]; [lra |].
  set (L := vlength (vadd a b)) in *.
  destruct a as [ax ay], b as [bx by_].
  unfold dotproduct, vadd, sq in *. cbn [fst snd] in *.
  replace (ax * ((ax + bx) / L) + ay * ((ay + by_) / L)) with (L / 2).
  - lra.
  - apply (Rmult_eq_reg_r (2 * L)); [| lra]. field_simplify; [| lra]. nra.
Qed.

Section Offsettable.

Variables (points : list Point) (closed : bool).
Hypothesis Hpath : offsettable points closed.

Let n := length points.

Lemma offsettable_incoming_unit (i : nat) :
  (i < n)%nat -> closed = true \/ (1 <= i)%nat ->
  vlength (incoming_normal points i) = 1.
Proof.
  intros Hi Hside. pose proof Hpath as [_ [Hedges _]].
  unfold incoming_normal. apply edge_normal_unit. fold n.
  assert (Hp : (prev_index n i < n)%nat) by (apply prev_index_lt; lia).
  assert (He : point_at points (prev_index n i) <>
               point_at points (next_index n (prev_index n i))).
  { apply Hedges; [exact Hp |].
    destruct Hside as [Hc | H1]; [left; exact Hc | right].
    destruct i as [| i']; [lia |]. fold n.
    rewrite prev_index_succ by exact Hi. lia. }
  rewrite next_prev_index in He by exact Hi. exact He.
Qed.

Lemma offsettable_outgoing_unit (i : nat) :
  (i < n)%nat -> closed = true \/ (i + 1 < n)%nat ->
  vlength (outgoing_normal points i) = 1.
Proof.
  intros Hi Hside. pose proof Hpath as [_ [Hedges _]].
  unfold outgoing_normal. apply edge_normal_unit. apply Hedges; assumption.
Qed.

Lemma offsettable_sum_nonzero (i : nat) :
  (i < n)%nat ->
  vlength (spec_v1 points closed i) = 1 /\
  vlength (spec_v2 points closed i) = 1 /\
  vadd (spec_v1 points closed i) (spec_v2 points closed i) <> (0, 0).
Proof.
  intros Hi. pose proof Hpath as [Hlen [Hedges Hturn]].
  assert (Hboth : closed = true \/ ((1 <= i)%nat /\ (i + 1 < n)%nat) ->
            vadd (incoming_normal points i) (outgoing_normal points i) <> (0, 0)).
  { intros Hside Hz. apply (Hturn i Hi Hside).
    unfold incoming_normal, outgoing_normal, edge_normal in Hz. fold n in Hz.
    unfold turns_back. fold n.
    apply opposite_directions; [| | exact Hz].
    - intros H0. apply (proj1 (vdiff_zero_iff _ _)) in H0.
      pose proof (offsettable_incoming_unit i Hi
                    ltac:(destruct Hside as [Hc | [H1 _]]; [left | right]; assumption))
        as Hu.
      unfold incoming_normal in Hu. fold n in Hu. rewrite H0 in Hu.
      rewrite edge_normal_degenerate in Hu.
      assert (H00 : vlength (-0, 0) = 0) by (apply vlength_zero_iff; f_equal; ring).
      lra.
    - intros H0. apply (proj1 (vdiff_zero_iff _ _)) in H0.
      apply (Hedges i Hi); [| exact H0].
      destruct Hside as [Hc | [_ H1]]; [left | right]; assumption. }
  unfold spec_v2, spec_v1. fold n.
  destruct (bool_dec closed true) as [Hclosed | Hopen].
  - rewrite Hclosed. cbn [negb andb].
    split; [apply offsettable_incoming_unit; [exact Hi | left; exact Hclosed] |].
    split; [apply offsettable_outgoing_unit; [exact Hi | left; exact Hclosed] |].
    apply Hboth. left. exact Hclosed.
  - apply not_true_is_false in Hopen. rewrite Hopen. cbn [negb andb].
    destruct Hlen as [Hc | Hn2]; [congruence |]. fold n in Hn2.
    destruct (Nat.eqb_spec i 0) as [Hz | Hnz];
      destruct (Nat.eqb_spec i (n - 1)) as [Hl | Hnl]; try lia.
    + assert (Hu : vlength (outgoing_normal points i) = 1)
        by (apply offsettable_outgoing_unit; [exact Hi | right; lia]).
      split; [exact Hu |]. split; [exact Hu |].
      apply unit_double_nonzero, Hu.
    + assert (Hu : vlength (incoming_normal points i) = 1)
        by (apply offsettable_incoming_unit; [exact Hi | right; lia]).
      split; [exact Hu |]. split; [exact Hu |].
      apply unit_double_nonzero, Hu.
    + split; [apply offsettable_incoming_unit; [exact Hi | right; lia] |].
      split; [apply offsettable_outgoing_unit; [exact Hi | right; lia] |].
      apply Hboth. right. lia.
Qed.

(** On such a path no vertex has a zero cosine: [kerf] returns. *)
Lemma offsettable_cosine (i : nat) :
  (i < n)%nat -> cosHalfAngle points closed i <> 0.
Proof.
  intros Hi. destruct (offsettable_sum_nonzero i Hi) as [H1 [H2 Hs]].
  unfold cosHalfAngle, bisector. apply unit_sum_cosine; assumption.
Qed.

Lemma offsettable_returns (k : R) :
  kerf points k closed = Ok (kerf_spec points k closed).
Proof. apply kerf_ok. intros i Hi. apply offsettable_cosine, Hi. Qed.

End Offsettable.

Lemma unit_square_offsettable : offsettable unit_square true.
Proof.
  split; [left; reflexivity |]. split; [exact unit_square_edges |].
  intros i Hi _ [c [Hc H]]. cbn in Hi.
  destruct i as [| [| [| [| i]]]]; [| | | | lia]; cbn in H;
    unfold vdiff, vscalmul in H; cbn [fst snd] in H;
    injection H as Hx Hy; nra.
Qed.








